(** * go-rest-api-std: the album store and its HTTP handler

    A shallow embedding of the repository's Go code:
    - [model.go]: the [Album] record;
    - [errors.go]: the sentinel errors and the error-kind strings;
    - the in-memory database ([MemoryDatabase], its three methods);
    - the regular-expression helper [match];
    - the HTTP server ([ServeHTTP] and the handlers behind it).

    Go strings are byte sequences, which is what Rocq's [string] is, so
    [==] and [<] on Go strings are equality and [String.ltb] here.  Go's
    [int] only meets comparisons and constants in this code, so it is [Z].
    The [sync.RWMutex] of the database is held for the whole body of each
    method; a method is therefore one atomic step on the map, which is how
    it is written here.  Calls to the logger have no effect on the response
    or on the database and are left out. *)

From Stdlib Require Import ZArith String Ascii List Sorted Permutation Bool Lia.
From stdpp Require Import base option list gmap strings sorting.

#[local] Set Warnings "-clear-no-such-hyp".
Local Open Scope string_scope.
Local Open Scope Z_scope.
Local Open Scope list_scope.

(** ** model.go *)

(** [Album] represents data about a single album. *)
Record Album := mkAlbum {
  ID : string;
  Title : string;
  Artist : string;
  Price : Z
}.

#[global] Instance Album_eq_dec : EqDecision Album.
Proof. solve_decision. Defined.

(** The zero value [Album{}]. *)
Definition Album_zero : Album := mkAlbum "" "" "" 0.

(** ** errors.go *)

(** Go's [error] values.  The two sentinels are compared by identity, so they
    are constructors of their own; [errorString] is any other error made by
    [errors.New] or by a library, [wrapError] an error that wraps another
    (what [fmt.Errorf] with [%w] builds).  A [nil] error is [None]. *)
Inductive error :=
| ErrDoesNotExist
| ErrAlreadyExists
| errorString (msg : string)
| wrapError (msg : string) (err : error).

#[global] Instance error_eq_dec : EqDecision error.
Proof. solve_decision. Defined.

(** [err.Error()]. *)
Definition Error (err : error) : string :=
  match err with
  | ErrDoesNotExist => "does not exist"
  | ErrAlreadyExists => "already exists"
  | errorString msg => msg
  | wrapError msg _ => msg
  end.

(** [errors.Is(err, target)] for a non-nil [target]: follows the chain of
    wrapped errors down from [err]. *)
Fixpoint errors_Is_chain (err target : error) : bool :=
  if decide (err = target) then true
  else match err with
       | wrapError _ inner => errors_Is_chain inner target
       | _ => false
       end.

Definition errors_Is (err : option error) (target : error) : bool :=
  match err with
  | None => false
  | Some e => errors_Is_chain e target
  end.

Definition ErrorAlreadyExists : string := "already-exists".
Definition ErrorDatabase : string := "database".
Definition ErrorInternal : string := "internal".
Definition ErrorMalformedJSON : string := "malformed-json".
Definition ErrorMethodNotAllowed : string := "method-not-allowed".
Definition ErrorNotFound : string := "not-found".
Definition ErrorValidation : string := "validation".

(** ** sort.Slice

    [sort.Slice(x, less)] sorts the slice in place by [less] and promises no
    stability.  The library sorts short slices by insertion, moving each
    element left past the elements it is less than; that is the model here.
    [sort_Slice_unique] below shows that on albums with distinct ids no
    other sorting routine could return anything else. *)
Section sort.
Context {A : Type} (less : A → A → bool).

Fixpoint insert_less (x : A) (l : list A) : list A :=
  match l with
  | [] => [x]
  | y :: l' => if less x y then x :: y :: l' else y :: insert_less x l'
  end.

Definition sort_Slice (l : list A) : list A :=
  fold_left (λ acc x, insert_less x acc) l [].
End sort.

(** ** The database interface

    [Database] is the interface used by the server to load and store albums.
    A method is a function from the state of the implementation to its
    results and the state it leaves. *)
Class Database (D : Type) := {
  (** returns a copy of all albums, sorted by ID *)
  GetAlbums : D → (list Album * option error) * D;
  (** returns a single album by ID, or [ErrDoesNotExist] *)
  GetAlbumByID : string → D → (Album * option error) * D;
  (** adds a single album, or [ErrAlreadyExists] *)
  AddAlbum : Album → D → option error * D
}.

(** ** The in-memory database *)
Module MemoryDatabase.

(** The state of a [MemoryDatabase] is its [albums] map. *)
Abbreviation t := (gmap string Album).

(** A small state monad over the map, for the method bodies. *)
Definition M (A : Type) : Type := t → A * t.
#[global] Instance M_ret : MRet M := λ A a d, (a, d).
#[global] Instance M_bind : MBind M :=
  λ A B f m d, let (a, d') := m d in f a d'.
(** [d.albums[id]], the comma-ok form *)
Definition load (id : string) : M (option Album) := λ d, (d !! id, d).
(** [d.albums[id] = album] *)
Definition store (id : string) (album : Album) : M unit :=
  λ d, (tt, <[id := album]> d).

(** [NewMemoryDatabase] creates a new in-memory database. *)
Definition NewMemoryDatabase : t := ∅.

Section range.
(** Go does not say in which order [range] visits a map.  [range_map] is
    that order: any enumeration of the map's entries. *)
Variable range_map : gmap string Album → list (string * Album).

(** [for _, album := range d.albums { albums = append(albums, album) }] *)
Definition copy_albums : M (list Album) :=
  λ d, (fold_left (λ albums kv, albums ++ [kv.2]) (range_map d) [], d).

Definition GetAlbums : M (list Album * option error) :=
  albums ← copy_albums;
  let albums := sort_Slice (λ a b, String.ltb (ID a) (ID b)) albums in
  mret (albums, None).
End range.

Definition GetAlbumByID (id : string) : M (Album * option error) :=
  r ← load id;
  match r with
  | None => mret (Album_zero, Some ErrDoesNotExist)
  | Some album => mret (album, None)
  end.

Definition AddAlbum (album : Album) : M (option error) :=
  r ← load (ID album);
  match r with
  | Some _ => mret (Some ErrAlreadyExists)
  | None => store (ID album) album;; mret None
  end.

(** The albums a database holds, in no particular order. *)
Definition stored (d : t) : list Album := (map_to_list d).*2.

(** Every album is filed under its own id; [AddAlbum] keeps it so. *)
Definition keyed (d : t) : Prop := ∀ k a, d !! k = Some a → ID a = k.

(** The database after a sequence of [AddAlbum] calls, failed ones
    included. *)
Definition add_all (l : list Album) (d : t) : t :=
  fold_left (λ d a, (AddAlbum a d).2) l d.

End MemoryDatabase.

(** [MemoryDatabase] implements [Database], whatever the order of [range]. *)
#[global] Instance MemoryDatabase_Database
    (range_map : gmap string Album → list (string * Album)) :
  Database (gmap string Album) := {
  GetAlbums := MemoryDatabase.GetAlbums range_map;
  GetAlbumByID := MemoryDatabase.GetAlbumByID;
  AddAlbum := MemoryDatabase.AddAlbum
}.

(** The two albums [main] puts in the database before it starts to serve. *)
Definition main_db : gmap string Album :=
  MemoryDatabase.add_all
    [mkAlbum "a1" "9th Symphony" "Beethoven" 795;
     mkAlbum "a2" "Hey Jude" "The Beatles" 2000]
    MemoryDatabase.NewMemoryDatabase.

(** ** JSON

    What [json.MarshalIndent] writes is a JSON document; the server's
    responses are kept as documents, the indentation being a matter of
    layout only.  The fields of an object are listed in the order in which
    they are written. *)
#[local] Set Warnings "-register-all".
Inductive json :=
| JNumber (n : Z)
| JString (s : string)
| JArray (items : list json)
| JObject (fields : list (string * json)).

(** The value of member [key] of an object. *)
Fixpoint fields_get (key : string) (fields : list (string * json)) : option json :=
  match fields with
  | [] => None
  | (k, v) :: rest => if decide (k = key) then Some v else fields_get key rest
  end.

Definition json_get (key : string) (doc : json) : option json :=
  match doc with
  | JObject fields => fields_get key fields
  | _ => None
  end.

(** [json.Marshal] follows the type of its argument and the tags of its
    fields; each type the server marshals has its instance.  None of them
    can make [json.Marshal] fail. *)
Class Marshal (A : Type) := marshal : A → json.
#[global] Hint Mode Marshal ! : typeclass_instances.

(** A field tagged [omitempty] is left out when its value is empty. *)
Definition omitempty (name : string) (empty : bool) (v : json) : list (string * json) :=
  if empty then [] else [(name, v)].

#[global] Instance string_Marshal : Marshal string := JString.
#[global] Instance int_Marshal : Marshal Z := JNumber.
#[global] Instance slice_Marshal `{Marshal A} : Marshal (list A) :=
  λ l, JArray (marshal <$> l).

(** [Album], with the tags of model.go. *)
#[global] Instance Album_Marshal : Marshal Album := λ a,
  JObject ([("id", marshal (ID a)); ("title", marshal (Title a));
            ("artist", marshal (Artist a))]
           ++ omitempty "price" (bool_decide (Price a = 0)) (marshal (Price a))).

(** The [validationIssue] of [addAlbum]. *)
Record validationIssue := mkIssue {
  issue_Error : string;
  issue_Message : string
}.

#[global] Instance validationIssue_Marshal : Marshal validationIssue := λ i,
  JObject ([("error", marshal (issue_Error i))]
           ++ omitempty "message" (bool_decide (issue_Message i = ""))
                (marshal (issue_Message i))).

(** The values the server puts in a [map[string]any]. *)
Inductive any :=
| any_string (s : string)
| any_issue (i : validationIssue).

#[global] Instance any_Marshal : Marshal any := λ v,
  match v with
  | any_string s => marshal s
  | any_issue i => marshal i
  end.

(** A map is written as an object with its keys sorted. *)
#[global] Instance map_Marshal `{Marshal A} : Marshal (gmap string A) := λ m,
  JObject (sort_Slice (λ x y, String.ltb x.1 y.1)
             (map_to_list (marshal <$> m))).

(** The anonymous struct of [jsonError].  A [nil] map and an empty one are
    both left out by [omitempty]; [∅] stands for either. *)
Record errorResponse := mkErrorResponse {
  resp_Status : Z;
  resp_Error : string;
  resp_Data : gmap string any
}.

#[global] Instance errorResponse_Marshal : Marshal errorResponse := λ e,
  JObject ([("status", marshal (resp_Status e)); ("error", marshal (resp_Error e))]
           ++ omitempty "data" (bool_decide (size (resp_Data e) = 0%nat))
                (marshal (resp_Data e))).

(** ** Requests and responses *)

(** What a handler reads of an [http.Request]: the method, [r.URL.Path] and
    what [io.ReadAll(r.Body)] returns. *)
Record Request := mkRequest {
  Method : string;
  URL_Path : string;
  Body : string * option error
}.

(** An [http.ResponseWriter]: the header map, the status code once written
    and the documents written to the body. *)
Record ResponseWriter := mkResponseWriter {
  Header : gmap string string;
  status : option Z;
  written : list json
}.

Definition NewResponseWriter : ResponseWriter := mkResponseWriter ∅ None [].

Definition StatusOK : Z := 200.
Definition StatusCreated : Z := 201.
Definition StatusBadRequest : Z := 400.
Definition StatusNotFound : Z := 404.
Definition StatusMethodNotAllowed : Z := 405.
Definition StatusConflict : Z := 409.
Definition StatusInternalServerError : Z := 500.

(** ** match

    A compiled pattern is known by [FindStringSubmatch]: the whole match
    followed by the capturing groups, or [nil]. *)
Definition Regexp : Type := string → list string.

(** [for i, match := range matches[1:] { *vars[i] = match }]; an index out
    of range panics, which is [None]. *)
Fixpoint bind_vars (i : nat) (matches vars : list string) : option (list string) :=
  match matches with
  | [] => Some vars
  | m :: rest =>
      if decide (i < length vars)%nat
      then bind_vars (S i) rest (<[i := m]> vars)
      else None
  end.

(** [match] returns true if [path] matches the regex pattern, and binds any
    capturing groups in pattern to the vars. *)
Definition match_ (path : string) (pattern : Regexp) (vars : list string)
  : option (bool * list string) :=
  let matches := pattern path in
  if bool_decide (length matches ≤ 0)%nat then Some (false, vars)
  else vars' ← bind_vars 0 (tail matches) vars; Some (true, vars').

(** [s] without the prefix [p], if it starts with it. *)
Fixpoint trim_prefix (p s : string) : option string :=
  match p, s with
  | EmptyString, _ => Some s
  | String a p', String b s' => if decide (a = b) then trim_prefix p' s' else None
  | String _ _, EmptyString => None
  end.

(** The longest prefix of [s] without a slash, and the rest. *)
Fixpoint span_non_slash (s : string) : string * string :=
  match s with
  | EmptyString => (EmptyString, EmptyString)
  | String a s' =>
      if decide (a = "/"%char) then (EmptyString, s)
      else let (run, rest) := span_non_slash s' in (String a run, rest)
  end.

(** Regex to match "/albums/:id" (id must be one or more non-slash chars):
    [^/albums/([^/]+)$].  After the literal prefix the group takes the
    longest run of non-slash bytes, which must not be empty and must reach
    the end of the path. *)
Definition reAlbumsID : Regexp := λ path,
  match trim_prefix "/albums/" path with
  | Some rest =>
      let (id, tail) := span_non_slash rest in
      if bool_decide (id ≠ "") && bool_decide (tail = "") then [path; id] else []
  | None => []
  end.

(** ** The server

    A handler works on the response writer and on the database behind the
    [Database] interface; [None] is a run-time panic. *)
Section Server.
Context {D : Type} {DB : Database D}.

(** [json.Unmarshal(b, v)] for [v] a pointer to an [Album]: the album it
    leaves in [v] and its error.  The decoder belongs to the standard
    library; the server is written for whatever it does. *)
Variable json_Unmarshal : string → Album → Album * option error.

Definition handler (A : Type) : Type :=
  ResponseWriter * D → option (A * (ResponseWriter * D)).

#[global] Instance handler_ret : MRet handler := λ A a c, Some (a, c).
#[global] Instance handler_bind : MBind handler :=
  λ A B f m c, match m c with Some (a, c') => f a c' | None => None end.

Definition panic {A} : handler A := λ _, None.

(** A call of a method of [s.db]. *)
Definition db_call {A} (m : D → A * D) : handler A :=
  λ '(w, d), let (a, d') := m d in Some (a, (w, d')).

(** [w.Header().Set(key, value)] *)
Definition Header_Set (key value : string) : handler unit :=
  λ '(w, d), Some (tt, (mkResponseWriter (<[key := value]> (Header w))
                          (status w) (written w), d)).

(** [w.WriteHeader(status)]; only the first call counts. *)
Definition WriteHeader (code : Z) : handler unit :=
  λ '(w, d), Some (tt, (mkResponseWriter (Header w)
                          (match status w with Some c => Some c | None => Some code end)
                          (written w), d)).

(** [w.Write(b)] *)
Definition Write (b : json) : handler unit :=
  λ '(w, d), Some (tt, (mkResponseWriter (Header w) (status w)
                          (written w ++ [b]), d)).

(** [writeJSON] marshals [v] to JSON and writes it to the response.  It also
    sets the Content-Type header.  [json.MarshalIndent] cannot fail on the
    values the server marshals, so the branch for its error is never
    taken. *)
Definition writeJSON `{Marshal A} (code : Z) (v : A) : handler unit :=
  Header_Set "Content-Type" "application/json; charset=utf-8";;
  let b := marshal v in
  WriteHeader code;;
  Write b.

(** [jsonError] writes a structured error as JSON to the response, with
    optional structured data in the "data" field. *)
Definition jsonError (code : Z) (error : string) (data : gmap string any)
  : handler unit :=
  let response := mkErrorResponse code error data in
  writeJSON code response.

(** [readJSON] reads the request body and unmarshals it from JSON.  It
    returns true on success, with the album read. *)
Definition readJSON (r : Request) (v : Album) : handler (bool * Album) :=
  let (b, err) := Body r in
  match err with
  | Some _ =>
      jsonError StatusInternalServerError ErrorInternal ∅;;
      mret (false, v)
  | None =>
      let (v', err) := json_Unmarshal b v in
      match err with
      | Some e =>
          let data : gmap string any := {[ "message" := any_string (Error e) ]} in
          jsonError StatusBadRequest ErrorMalformedJSON data;;
          mret (false, v')
      | None => mret (true, v')
      end
  end.

Definition getAlbums (r : Request) : handler unit :=
  '(albums, err) ← db_call GetAlbums;
  match err with
  | Some _ => jsonError StatusInternalServerError ErrorDatabase ∅
  | None => writeJSON StatusOK albums
  end.

(** The map of validation issues [addAlbum] builds. *)
Definition validation_issues (album : Album) : gmap string any :=
  let issues : gmap string any := ∅ in
  let issues :=
    if decide (ID album = "")
    then <["id" := any_issue (mkIssue "required" "")]> issues else issues in
  let issues :=
    if decide (Title album = "")
    then <["title" := any_issue (mkIssue "required" "")]> issues else issues in
  let issues :=
    if decide (Artist album = "")
    then <["artist" := any_issue (mkIssue "required" "")]> issues else issues in
  let issues :=
    if decide (Price album < 0 ∨ Price album >= 100000)
    then <["price" := any_issue (mkIssue "out-of-range"
                                   "price must be between 0 and $1000")]> issues
    else issues in
  issues.

Definition addAlbum (r : Request) : handler unit :=
  '(ok, album) ← readJSON r Album_zero;
  if negb ok then mret tt else
  (* Validate the input and build a map of validation issues *)
  let issues := validation_issues album in
  if bool_decide (0 < size issues)%nat
  then jsonError StatusBadRequest ErrorValidation issues
  else
    err ← db_call (AddAlbum album);
    if errors_Is err ErrAlreadyExists
    then jsonError StatusConflict ErrorAlreadyExists ∅
    else match err with
         | Some _ => jsonError StatusInternalServerError ErrorDatabase ∅
         | None => writeJSON StatusCreated album
         end.

Definition getAlbumByID (r : Request) (id : string) : handler unit :=
  '(album, err) ← db_call (GetAlbumByID id);
  if errors_Is err ErrDoesNotExist
  then jsonError StatusNotFound ErrorNotFound ∅
  else match err with
       | Some _ => jsonError StatusInternalServerError ErrorDatabase ∅
       | None => writeJSON StatusOK album
       end.

(** [ServeHTTP] routes the request and calls the correct handler based on
    the URL and HTTP method. It writes a 404 Not Found if the request URL
    is unknown, or 405 Method Not Allowed if the request method is
    invalid. *)
Definition ServeHTTP (r : Request) : handler unit :=
  let path := URL_Path r in
  let id := "" in
  if decide (path = "/albums") then
    if decide (Method r = "GET") then getAlbums r
    else if decide (Method r = "POST") then addAlbum r
    else
      Header_Set "Allow" "GET, POST";;
      jsonError StatusMethodNotAllowed ErrorMethodNotAllowed ∅
  else
    match match_ path reAlbumsID [id] with
    | None => panic
    | Some (true, vars) =>
        let id := default "" (vars !! 0%nat) in
        if decide (Method r = "GET") then getAlbumByID r id
        else
          Header_Set "Allow" "GET";;
          jsonError StatusMethodNotAllowed ErrorMethodNotAllowed ∅
    | Some (false, _) =>
        jsonError StatusNotFound ErrorNotFound ∅
    end.

(** The response to a request that arrives when the database is [d]: the
    response writer starts empty. *)
Definition serve (r : Request) (d : D) : option (ResponseWriter * D) :=
  snd <$> ServeHTTP r (NewResponseWriter, d).
End Server.

(** What the response writer holds after [writeJSON] on a fresh one. *)
Definition response (hdr : gmap string string) (code : Z) (doc : json)
  : ResponseWriter :=
  mkResponseWriter (<["Content-Type" := "application/json; charset=utf-8"]> hdr)
    (Some code) [doc].

(** Decoders and requests for the examples: a decoder that reads [album]
    out of every body, one that rejects every body with [msg], and the two
    kinds of request. *)
Definition decode_as (album : Album) : string → Album → Album * option error :=
  λ _ _, (album, None).

Definition decode_fails (msg : string) : string → Album → Album * option error :=
  λ _ v, (v, Some (errorString msg)).

Definition request (method path : string) : Request :=
  mkRequest method path ("", None).

Definition post_albums (body : string) : Request :=
  mkRequest "POST" "/albums" (body, None).

(** An album that is valid but for its price, perhaps. *)
Definition priced (p : Z) : Album := mkAlbum "a3" "Kind of Blue" "Miles Davis" p.

(** The server of [main]: the in-memory database behind the handler. *)
Definition main_serve (json_Unmarshal : string → Album → Album * option error)
    (r : Request) (d : gmap string Album)
  : option (ResponseWriter * gmap string Album) :=
  serve (DB := MemoryDatabase_Database map_to_list) json_Unmarshal r d.

(** ** Notions the properties are stated with *)

(** The comparison [GetAlbums] hands to [sort.Slice]. *)
Definition ID_less (a b : Album) : bool := String.ltb (ID a) (ID b).

(** [a] comes no later than [b] in the order of ids: byte-wise
    lexicographic, [String.compare]. *)
Definition ID_le (a b : Album) : Prop := String.le (ID a) (ID b).

(** [path] is [/albums/{id}] with [{id}] one or more non-slash bytes. *)
Definition album_path (path id : string) : Prop :=
  path = "/albums/" +:+ id ∧ id ≠ "" ∧ "/"%char ∉ String.list_ascii_of_string id.

(** The document of an error without data, and of one with data. *)
Definition error_doc (code : Z) (kind : string) : json :=
  JObject [("status", JNumber code); ("error", JString kind)].

Definition error_data_doc (code : Z) (kind : string) (data : json) : json :=
  JObject [("status", JNumber code); ("error", JString kind); ("data", data)].

(** The two issues [addAlbum] raises. *)
Definition required : any := any_issue (mkIssue "required" "").
Definition out_of_range : any :=
  any_issue (mkIssue "out-of-range" "price must be between 0 and $1000").

(** The albums that pass validation. *)
Definition valid (album : Album) : Prop :=
  ID album ≠ "" ∧ Title album ≠ "" ∧ Artist album ≠ "" ∧
  0 ≤ Price album < 100000.

(** A database that fails: every method returns the error [e] and leaves
    the state, a count of the calls made, one higher. *)
Definition failing (e : error) : Database nat := {|
  GetAlbums := λ n, ([], Some e, S n);
  GetAlbumByID := λ _ n, (Album_zero, Some e, S n);
  AddAlbum := λ _ n, (Some e, S n)
|}.

(** The pairs of status code and error kind the server answers with. *)
Definition error_table : list (Z * string) :=
  [(StatusBadRequest, ErrorValidation);
   (StatusBadRequest, ErrorMalformedJSON);
   (StatusNotFound, ErrorNotFound);
   (StatusMethodNotAllowed, ErrorMethodNotAllowed);
   (StatusConflict, ErrorAlreadyExists);
   (StatusInternalServerError, ErrorDatabase);
   (StatusInternalServerError, ErrorInternal)].

(** A response is well formed when it has a status code, the JSON content
    type and one document, which is either a success (200 or 201, no Allow
    header, no error member) or an error envelope whose status member is the
    status code and whose kind goes with that code, with an Allow header
    exactly on a 405. *)
Definition well_formed (w : ResponseWriter) : Prop :=
  ∃ code doc,
    status w = Some code ∧ written w = [doc] ∧
    Header w !! "Content-Type" = Some "application/json; charset=utf-8" ∧
    ((code ∈ [StatusOK; StatusCreated] ∧ Header w !! "Allow" = None ∧
      json_get "error" doc = None) ∨
     (∃ kind, (code, kind) ∈ error_table ∧
              json_get "status" doc = Some (JNumber code) ∧
              json_get "error" doc = Some (JString kind) ∧
              (is_Some (Header w !! "Allow") ↔ code = StatusMethodNotAllowed))).

(** Every stored album is filed under its id and passes validation. *)
Definition all_valid (d : gmap string Album) : Prop :=
  ∀ k a, d !! k = Some a → ID a = k ∧ valid a.

(** The database after the server of [main] has answered the requests
    [rs] in turn. *)
Definition run_requests (range_map : gmap string Album → list (string * Album))
    (json_Unmarshal : string → Album → Album * option error)
    (rs : list Request) (d : gmap string Album) : gmap string Album :=
  fold_left
    (λ d r, match serve (DB := MemoryDatabase_Database range_map) json_Unmarshal r d with
            | Some (_, d') => d'
            | None => d
            end) rs d.

(** * Properties *)

(** ** Strings in byte order *)

Lemma ltb_true_le (s1 s2 : string) : String.ltb s1 s2 = true → String.le s1 s2.
Proof.
  unfold String.le, String.ltb, String.leb.
  destruct (String.compare s1 s2); simpl; done.
Qed.

Lemma ltb_false_le (s1 s2 : string) : String.ltb s1 s2 = false → String.le s2 s1.
Proof.
  unfold String.le, String.ltb, String.leb.
  rewrite (String.compare_antisym s1 s2).
  destruct (String.compare s2 s1); simpl; done.
Qed.

#[global] Instance ID_le_trans : Transitive ID_le.
Proof. intros a b c. unfold ID_le. apply transitivity. Qed.

(** ** sort.Slice sorts *)
Section sort_facts.
Context {A : Type} (less : A → A → bool) (R : A → A → Prop).
Hypothesis less_R : ∀ x y, less x y = true → R x y.
Hypothesis not_less_R : ∀ x y, less x y = false → R y x.

Lemma insert_less_Permutation (x : A) (l : list A) :
  insert_less less x l ≡ₚ x :: l.
Proof.
  induction l as [|y l IH]; simpl; [done|].
  destruct (less x y); [done|].
  rewrite IH. apply Permutation_swap.
Qed.

Lemma sort_Slice_from_Permutation (l acc : list A) :
  fold_left (λ acc x, insert_less less x acc) l acc ≡ₚ acc ++ l.
Proof.
  revert acc. induction l as [|x l IH]; intros acc; simpl.
  - by rewrite app_nil_r.
  - rewrite IH, insert_less_Permutation.
    simpl. apply Permutation_middle.
Qed.

Lemma sort_Slice_Permutation (l : list A) : sort_Slice less l ≡ₚ l.
Proof. unfold sort_Slice. by rewrite sort_Slice_from_Permutation. Qed.

Lemma insert_less_HdRel (x y : A) (l : list A) :
  R y x → HdRel R y l → HdRel R y (insert_less less x l).
Proof.
  intros Hyx Hl. destruct l as [|z l]; simpl.
  - by constructor.
  - destruct (less x z); constructor; [done|].
    by inversion Hl.
Qed.

Lemma insert_less_Sorted (x : A) (l : list A) :
  Sorted R l → Sorted R (insert_less less x l).
Proof.
  induction 1 as [|y l Hl IH Hy]; simpl.
  - repeat constructor.
  - destruct (less x y) eqn:E.
    + constructor; [by constructor|]. constructor. by apply less_R.
    + constructor; [done|]. apply insert_less_HdRel; [|done].
      by apply not_less_R.
Qed.

Lemma sort_Slice_from_Sorted (l acc : list A) :
  Sorted R acc → Sorted R (fold_left (λ acc x, insert_less less x acc) l acc).
Proof.
  revert acc. induction l as [|x l IH]; intros acc Hacc; simpl; [done|].
  by apply IH, insert_less_Sorted.
Qed.

Lemma sort_Slice_Sorted (l : list A) : Sorted R (sort_Slice less l).
Proof. apply sort_Slice_from_Sorted. constructor. Qed.
End sort_facts.

(** ** The in-memory database *)
Module MemoryDatabaseFacts.
Import MemoryDatabase.

Lemma copy_albums_from (l : list (string * Album)) (acc : list Album) :
  fold_left (λ albums kv, albums ++ [kv.2]) l acc = acc ++ l.*2.
Proof.
  revert acc. induction l as [|kv l IH]; intros acc; simpl.
  - by rewrite app_nil_r.
  - by rewrite IH, <- app_assoc.
Qed.

Lemma GetAlbums_unfold range_map (d : gmap string Album) :
  GetAlbums range_map d = (sort_Slice ID_less (range_map d).*2, None, d).
Proof.
  unfold GetAlbums, copy_albums, mbind, M_bind, mret, M_ret.
  by rewrite copy_albums_from.
Qed.

Lemma GetAlbumByID_unfold (id : string) (d : gmap string Album) :
  GetAlbumByID id d =
    match d !! id with
    | Some album => (album, None, d)
    | None => (Album_zero, Some ErrDoesNotExist, d)
    end.
Proof.
  unfold GetAlbumByID, load, mbind, M_bind, mret, M_ret.
  by destruct (d !! id).
Qed.

Lemma AddAlbum_unfold (album : Album) (d : gmap string Album) :
  AddAlbum album d =
    match d !! ID album with
    | Some _ => (Some ErrAlreadyExists, d)
    | None => (None, <[ID album := album]> d)
    end.
Proof.
  unfold AddAlbum, load, store, mbind, M_bind, mret, M_ret.
  by destruct (d !! ID album).
Qed.

(** [keyed] holds of the empty database and is kept by [AddAlbum]. *)
Lemma keyed_empty : keyed NewMemoryDatabase.
Proof. intros k a. unfold NewMemoryDatabase. by rewrite lookup_empty. Qed.

Lemma keyed_AddAlbum (album : Album) (d : gmap string Album) :
  keyed d → keyed (AddAlbum album d).2.
Proof.
  intros Hd. rewrite AddAlbum_unfold.
  destruct (d !! ID album) eqn:E; simpl; [done|].
  intros k a. rewrite lookup_insert. case_decide; [|by apply Hd].
  by intros [= <-].
Qed.

Lemma keyed_add_all (l : list Album) (d : gmap string Album) :
  keyed d → keyed (add_all l d).
Proof.
  revert d. induction l as [|a l IH]; intros d Hd; simpl; [done|].
  by apply IH, keyed_AddAlbum.
Qed.

(** An id is in the database after a run of [AddAlbum] calls exactly when
    it was there before or one of the calls was for it. *)
Lemma add_all_lookup_None (l : list Album) (d : gmap string Album) (id : string) :
  add_all l d !! id = None ↔ d !! id = None ∧ id ∉ ID <$> l.
Proof.
  revert d. induction l as [|a l IH]; intros d; simpl.
  - rewrite elem_of_nil. naive_solver.
  - rewrite IH, AddAlbum_unfold, not_elem_of_cons.
    destruct (d !! ID a) eqn:E; simpl.
    + split; [|naive_solver]. intros [Hd Hl]. repeat split; try done.
      intros ->. congruence.
    + rewrite lookup_insert_None. naive_solver.
Qed.

(** Albums with distinct ids, added to a database that has none of them,
    are all stored. *)
Lemma stored_insert (album : Album) (d : gmap string Album) :
  d !! ID album = None → stored (<[ID album := album]> d) ≡ₚ album :: stored d.
Proof.
  intros Hd. unfold stored.
  by rewrite (map_to_list_insert d (ID album) album Hd).
Qed.

Lemma stored_add_all (l : list Album) (d : gmap string Album) :
  NoDup (ID <$> l) → (∀ a, a ∈ l → d !! ID a = None) →
  stored (add_all l d) ≡ₚ stored d ++ l.
Proof.
  revert d. induction l as [|a l IH]; intros d Hnd Hfresh; simpl.
  - by rewrite app_nil_r.
  - rewrite fmap_cons in Hnd. apply NoDup_cons in Hnd as [Ha Hnd].
    rewrite AddAlbum_unfold, (Hfresh a) by left. simpl.
    rewrite IH; [| done |].
    + rewrite stored_insert by (apply Hfresh; left).
      simpl. apply Permutation_middle.
    + intros b Hb. rewrite lookup_insert_ne; [apply Hfresh; by right|].
      intros Heq. apply Ha. rewrite Heq. by apply list_elem_of_fmap_2.
Qed.

(** In a [keyed] database no two albums share an id. *)
Lemma keyed_stored_ids (d : gmap string Album) :
  keyed d → ID <$> stored d = (map_to_list d).*1.
Proof.
  intros Hd. unfold stored. rewrite <- list_fmap_compose.
  apply list_fmap_ext. intros i [k a] Hka; simpl.
  apply Hd. apply elem_of_map_to_list. by eapply list_elem_of_lookup_2.
Qed.

Lemma keyed_NoDup (d : gmap string Album) : keyed d → NoDup (ID <$> stored d).
Proof. intros Hd. rewrite keyed_stored_ids by done. apply NoDup_fst_map_to_list. Qed.

(** [sort.Slice] has one possible result on albums with distinct ids:
    whatever is sorted by id and holds the same albums is that result. *)
Lemma sort_Slice_unique (l l' : list Album) :
  NoDup (ID <$> l) → l' ≡ₚ l → Sorted ID_le l' → l' = sort_Slice ID_less l.
Proof.
  intros Hnd Hperm Hsorted.
  apply (Sorted_unique_strong ID_le); [| done | |].
  - intros x1 x2 Hx1 Hx2 H12 H21.
    assert (ID x1 = ID x2) as Hid by (by apply (anti_symm String.le)).
    rewrite Hperm in Hx1. rewrite sort_Slice_Permutation in Hx2.
    clear -Hnd Hx1 Hx2 Hid.
    induction l as [|y l IH]; [by apply elem_of_nil in Hx1|].
    rewrite fmap_cons in Hnd. apply NoDup_cons in Hnd as [Hy Hnd].
    apply elem_of_cons in Hx1 as [->|Hx1], Hx2 as [->|Hx2]; [done| | |by apply IH].
    + exfalso. apply Hy. rewrite Hid. by apply list_elem_of_fmap_2.
    + exfalso. apply Hy. rewrite <- Hid. by apply list_elem_of_fmap_2.
  - apply (sort_Slice_Sorted ID_less ID_le); intros x y.
    + apply ltb_true_le.
    + apply ltb_false_le.
  - by rewrite sort_Slice_Permutation.
Qed.

(** The order in which [range] visits the map does not show in what
    [GetAlbums] returns. *)
Lemma GetAlbums_range_irrelevant range1 range2 (d : gmap string Album) :
  (∀ m, range1 m ≡ₚ map_to_list m) → (∀ m, range2 m ≡ₚ map_to_list m) →
  keyed d → GetAlbums range1 d = GetAlbums range2 d.
Proof.
  intros H1 H2 Hd. rewrite !GetAlbums_unfold. do 2 f_equal.
  apply sort_Slice_unique.
  - rewrite H2. by apply keyed_NoDup.
  - by rewrite sort_Slice_Permutation, H1, H2.
  - apply (sort_Slice_Sorted ID_less ID_le); intros x y.
    + apply ltb_true_le.
    + apply ltb_false_le.
Qed.

(** C1. For every album A whose id is not already stored, addAlbum(A)
    succeeds, and a getAlbum(A.id) that follows returns a value equal to A
    with no error. *)
Theorem AddAlbum_GetAlbumByID (d : gmap string Album) (album : Album) :
  d !! ID album = None →
  ∃ d', AddAlbum album d = (None, d') ∧
        GetAlbumByID (ID album) d' = (album, None, d').
Proof.
  intros Hfresh. exists (<[ID album := album]> d). split.
  - by rewrite AddAlbum_unfold, Hfresh.
  - by rewrite GetAlbumByID_unfold, lookup_insert_eq.
Qed.

Lemma AddAlbum_GetAlbumByID_witness :
  ∃ d', AddAlbum (mkAlbum "a3" "Kind of Blue" "Miles Davis" 1299) main_db
        = (None, d') ∧
        GetAlbumByID "a3" d'
        = (mkAlbum "a3" "Kind of Blue" "Miles Davis" 1299, None, d').
Proof.
  apply (AddAlbum_GetAlbumByID main_db
           (mkAlbum "a3" "Kind of Blue" "Miles Davis" 1299)).
  vm_compute. reflexivity.
Defined.

(** C2. For every database and every album A whose id is already stored,
    addAlbum(A) fails with ErrAlreadyExists and leaves the database as it
    was; the record stored under that id is the one from before. *)
Theorem AddAlbum_existing (d : gmap string Album) (album old : Album) :
  d !! ID album = Some old →
  AddAlbum album d = (Some ErrAlreadyExists, d) ∧
  (AddAlbum album d).2 !! ID album = Some old.
Proof.
  intros Hold. rewrite AddAlbum_unfold, Hold. by split.
Qed.

Lemma AddAlbum_existing_witness :
  AddAlbum (mkAlbum "a1" "Abbey Road" "The Beatles" 1500) main_db
  = (Some ErrAlreadyExists, main_db) ∧
  (AddAlbum (mkAlbum "a1" "Abbey Road" "The Beatles" 1500) main_db).2 !! "a1"
  = Some (mkAlbum "a1" "9th Symphony" "Beethoven" 795).
Proof.
  apply (AddAlbum_existing main_db
           (mkAlbum "a1" "Abbey Road" "The Beatles" 1500)
           (mkAlbum "a1" "9th Symphony" "Beethoven" 795)).
  vm_compute. reflexivity.
Defined.

(** C3. Whatever the database holds and in whatever order [range] visits
    it, listAlbums() returns a nil error and the stored albums, all of
    them and no others, sorted ascending by id in byte-wise lexicographic
    order.  In particular, albums with distinct ids added to a new
    database in any order are listed sorted by id. *)
Theorem GetAlbums_sorted (range_map : gmap string Album → list (string * Album)) :
  (∀ m, range_map m ≡ₚ map_to_list m) →
  (∀ d : gmap string Album, ∃ albums,
      GetAlbums range_map d = (albums, None, d) ∧
      albums ≡ₚ stored d ∧ Sorted ID_le albums) ∧
  (∀ l : list Album, NoDup (ID <$> l) → ∃ albums,
      (GetAlbums range_map (add_all l NewMemoryDatabase)).1 = (albums, None) ∧
      albums ≡ₚ l ∧ Sorted ID_le albums).
Proof.
  intros Hrange.
  assert (∀ d : gmap string Album, ∃ albums,
             GetAlbums range_map d = (albums, None, d) ∧
             albums ≡ₚ stored d ∧ Sorted ID_le albums) as Hall.
  { intros d. exists (sort_Slice ID_less (range_map d).*2). split; [|split].
    - apply GetAlbums_unfold.
    - rewrite sort_Slice_Permutation. unfold stored. by rewrite Hrange.
    - apply (sort_Slice_Sorted ID_less ID_le); intros x y.
      + apply ltb_true_le.
      + apply ltb_false_le. }
  split; [done|].
  intros l Hnd. destruct (Hall (add_all l NewMemoryDatabase)) as (albums & Hget & Hperm & Hsorted).
  exists albums. rewrite Hget. split; [done|]. split; [|done].
  rewrite Hperm, stored_add_all; [| done |].
  - unfold stored, NewMemoryDatabase. by rewrite map_to_list_empty.
  - intros a _. apply lookup_empty.
Qed.

Lemma GetAlbums_sorted_witness :
  (∀ d : gmap string Album, ∃ albums,
      GetAlbums (λ m, reverse (map_to_list m)) d = (albums, None, d) ∧
      albums ≡ₚ stored d ∧ Sorted ID_le albums) ∧
  (∀ l : list Album, NoDup (ID <$> l) → ∃ albums,
      (GetAlbums (λ m, reverse (map_to_list m))
         (add_all l NewMemoryDatabase)).1 = (albums, None) ∧
      albums ≡ₚ l ∧ Sorted ID_le albums).
Proof.
  apply (GetAlbums_sorted (λ m, reverse (map_to_list m))).
  intros m. apply reverse_Permutation.
Defined.

(** C10. listAlbums() and getAlbum(id) never modify the database: after
    either call the map of albums is the one from before, whatever it
    holds, whatever the id and whatever the order of [range]. *)
Theorem reads_leave_database (range_map : gmap string Album → list (string * Album))
    (d : gmap string Album) (id : string) :
  (GetAlbums range_map d).2 = d ∧ (GetAlbumByID id d).2 = d.
Proof.
  split.
  - by rewrite GetAlbums_unfold.
  - rewrite GetAlbumByID_unfold. by destruct (d !! id).
Qed.
End MemoryDatabaseFacts.

(** ** The pattern of the album path *)

Lemma trim_prefix_app (p s : string) : trim_prefix p (p +:+ s) = Some s.
Proof.
  induction p as [|a p IH]; simpl.
  - by destruct s.
  - unfold String.app in *. simpl. by rewrite decide_True.
Qed.

Lemma trim_prefix_Some (p s rest : string) :
  trim_prefix p s = Some rest → s = p +:+ rest.
Proof.
  revert s. induction p as [|a p IH]; intros s; simpl.
  - destruct s; intros [= <-]; reflexivity.
  - destruct s as [|b s]; [done|]. case_decide; [|done].
    intros Hs. apply IH in Hs. subst. reflexivity.
Qed.

Lemma span_non_slash_all (s : string) :
  "/"%char ∉ String.list_ascii_of_string s → span_non_slash s = (s, "").
Proof.
  induction s as [|a s IH]; simpl; [done|].
  rewrite not_elem_of_cons. intros [Ha Hs].
  rewrite decide_False by done. by rewrite IH.
Qed.

Lemma span_non_slash_end (s run : string) :
  span_non_slash s = (run, "") →
  s = run ∧ "/"%char ∉ String.list_ascii_of_string s.
Proof.
  revert run. induction s as [|a s IH]; intros run; simpl.
  - intros [= <-]. split; [done|]. apply not_elem_of_nil.
  - case_decide; [done|].
    destruct (span_non_slash s) as [run' rest] eqn:E.
    intros [= <- ->]. destruct (IH run' eq_refl) as [<- Hs].
    split; [done|]. rewrite not_elem_of_cons. by split.
Qed.

Lemma reAlbumsID_match (path id : string) :
  album_path path id → reAlbumsID path = [path; id].
Proof.
  intros (-> & Hne & Hslash). unfold reAlbumsID.
  rewrite trim_prefix_app, span_non_slash_all by done.
  rewrite bool_decide_eq_true_2 by done. reflexivity.
Qed.

Lemma reAlbumsID_no_match (path : string) :
  (∀ id, ¬ album_path path id) → reAlbumsID path = [].
Proof.
  intros Hno. unfold reAlbumsID.
  destruct (trim_prefix "/albums/" path) as [rest|] eqn:Hp; [|done].
  apply trim_prefix_Some in Hp.
  destruct (span_non_slash rest) as [id tail] eqn:Hs.
  destruct (bool_decide (id ≠ "")) eqn:Hid; [|done].
  destruct (bool_decide (tail = "")) eqn:Htail; [|done].
  apply bool_decide_eq_true in Hid, Htail. subst tail.
  apply span_non_slash_end in Hs as [-> Hs].
  destruct (Hno id). by repeat split.
Qed.

Lemma album_path_not_albums (path id : string) : album_path path id → path ≠ "/albums".
Proof. by intros (-> & _ & _). Qed.

Lemma album_path_unique (path id1 id2 : string) :
  album_path path id1 → album_path path id2 → id1 = id2.
Proof. intros (-> & _ & _) (H & _ & _). by injection H. Qed.

Lemma match_reAlbumsID (path id : string) :
  album_path path id → match_ path reAlbumsID [""] = Some (true, [id]).
Proof.
  intros Hp. unfold match_. by rewrite (reAlbumsID_match path id Hp).
Qed.

Lemma match_reAlbumsID_none (path : string) :
  (∀ id, ¬ album_path path id) → match_ path reAlbumsID [""] = Some (false, [""]).
Proof.
  intros Hp. unfold match_. by rewrite (reAlbumsID_no_match path Hp).
Qed.

(** ** JSON documents of maps *)

Lemma fields_get_elem_of (fields : list (string * json)) (k : string) (v : json) :
  NoDup fields.*1 → (k, v) ∈ fields → fields_get k fields = Some v.
Proof.
  induction fields as [|[k' v'] fields IH]; simpl; intros Hnd Hin.
  - by apply elem_of_nil in Hin.
  - apply NoDup_cons in Hnd as [Hk' Hnd].
    apply elem_of_cons in Hin as [[= <- <-]|Hin].
    + by rewrite decide_True.
    + rewrite decide_False; [by apply IH|].
      intros ->. apply Hk'. by apply (list_elem_of_fmap_2 fst _ (k, v)).
Qed.

Lemma fields_get_not_elem_of (fields : list (string * json)) (k : string) :
  k ∉ fields.*1 → fields_get k fields = None.
Proof.
  induction fields as [|[k' v'] fields IH]; simpl; [done|].
  rewrite not_elem_of_cons. intros [Hk Hin].
  rewrite decide_False by done. by apply IH.
Qed.

(** Member [k] of the object written for a map is what the map holds at
    [k]. *)
Lemma json_get_map `{Marshal A} (m : gmap string A) (k : string) :
  json_get k (marshal m) = marshal <$> m !! k.
Proof.
  unfold marshal at 1, map_Marshal. simpl.
  set (fields := sort_Slice _ _).
  assert (fields ≡ₚ map_to_list (marshal <$> m)) as Hperm
    by apply sort_Slice_Permutation.
  assert (NoDup fields.*1) as Hnd
    by (rewrite Hperm; apply NoDup_fst_map_to_list).
  destruct (m !! k) as [a|] eqn:E; simpl.
  - apply fields_get_elem_of; [done|].
    rewrite Hperm. apply elem_of_map_to_list. by rewrite lookup_fmap, E.
  - apply fields_get_not_elem_of. rewrite Hperm.
    intros ([k' v] & -> & Hin)%list_elem_of_fmap.
    apply elem_of_map_to_list in Hin. rewrite lookup_fmap in Hin.
    simpl in E. by rewrite E in Hin.
Qed.

Lemma json_get_error_data (code : Z) (kind field : string) (data : json) :
  json_get "data" (error_data_doc code kind data) ≫= json_get field
  = json_get field data.
Proof. reflexivity. Qed.

Lemma marshal_error_nil (code : Z) (kind : string) :
  marshal (mkErrorResponse code kind ∅) = error_doc code kind.
Proof. reflexivity. Qed.

Lemma marshal_error_data (code : Z) (kind : string) (data : gmap string any) :
  data ≠ ∅ →
  marshal (mkErrorResponse code kind data) = error_data_doc code kind (marshal data).
Proof.
  intros Hdata. unfold marshal at 1, errorResponse_Marshal. simpl.
  rewrite bool_decide_eq_false_2; [done|].
  by rewrite map_size_empty_iff.
Qed.

Lemma marshal_message (msg : string) :
  marshal ({[ "message" := any_string msg ]} : gmap string any)
  = JObject [("message", JString msg)].
Proof.
  unfold marshal, map_Marshal.
  by rewrite map_fmap_singleton, map_to_list_singleton.
Qed.

(** ** The handlers *)
Section ServerFacts.
Context {D : Type} {DB : Database D}.
Variable json_Unmarshal : string → Album → Album * option error.

Lemma writeJSON_fresh `{Marshal A} (hdr : gmap string string) (code : Z) (v : A) (d : D) :
  writeJSON code v (mkResponseWriter hdr None [], d)
  = Some (tt, (response hdr code (marshal v), d)).
Proof. reflexivity. Qed.

Lemma jsonError_fresh (hdr : gmap string string) (code : Z) (kind : string)
    (data : gmap string any) (d : D) :
  jsonError code kind data (mkResponseWriter hdr None [], d)
  = Some (tt, (response hdr code (marshal (mkErrorResponse code kind data)), d)).
Proof. reflexivity. Qed.

Lemma readJSON_malformed (r : Request) (b : string) (v v' : Album) (e : error)
    (d : D) :
  Body r = (b, None) → json_Unmarshal b v = (v', Some e) →
  readJSON json_Unmarshal r v (NewResponseWriter, d)
  = Some ((false, v'),
          (response ∅ StatusBadRequest
             (error_data_doc StatusBadRequest ErrorMalformedJSON
                (JObject [("message", JString (Error e))])), d)).
Proof.
  intros Hb Hu. unfold readJSON. rewrite Hb, Hu.
  unfold mbind, handler_bind, NewResponseWriter. rewrite jsonError_fresh.
  rewrite marshal_error_data, marshal_message; [done|].
  apply insert_non_empty.
Qed.

Lemma readJSON_ok (r : Request) (b : string) (v v' : Album) (c : ResponseWriter * D) :
  Body r = (b, None) → json_Unmarshal b v = (v', None) →
  readJSON json_Unmarshal r v c = Some ((true, v'), c).
Proof. intros Hb Hu. unfold readJSON. by rewrite Hb, Hu. Qed.

Lemma ServeHTTP_POST_albums (r : Request) (c : ResponseWriter * D) :
  Method r = "POST" → URL_Path r = "/albums" →
  ServeHTTP json_Unmarshal r c = addAlbum json_Unmarshal r c.
Proof.
  intros Hm Hp. unfold ServeHTTP. rewrite Hm, Hp. reflexivity.
Qed.

(** C9. For every request body that fails to parse as the expected JSON
    shape, POST /albums responds 400 with the error kind malformed-json
    and a data.message holding the text of the parse error; no method of
    the database is called, so its state is the one from before, whatever
    the implementation behind the interface. *)
Theorem addAlbum_malformed_json (r : Request) (d : D) (b : string)
    (v' : Album) (e : error) :
  Method r = "POST" → URL_Path r = "/albums" →
  Body r = (b, None) → json_Unmarshal b Album_zero = (v', Some e) →
  serve json_Unmarshal r d
  = Some (response ∅ 400
            (JObject [("status", JNumber 400);
                      ("error", JString "malformed-json");
                      ("data", JObject [("message", JString (Error e))])]),
          d).
Proof.
  intros Hm Hp Hb Hu. unfold serve.
  rewrite ServeHTTP_POST_albums by done.
  unfold addAlbum, mbind, handler_bind.
  by rewrite (readJSON_malformed r b Album_zero v' e d Hb Hu).
Qed.
(** *** Validation *)

Lemma validation_issues_id (album : Album) :
  validation_issues album !! "id"
  = if decide (ID album = "") then Some required else None.
Proof. unfold validation_issues. repeat case_decide; by simplify_map_eq. Qed.

Lemma validation_issues_title (album : Album) :
  validation_issues album !! "title"
  = if decide (Title album = "") then Some required else None.
Proof. unfold validation_issues. repeat case_decide; by simplify_map_eq. Qed.

Lemma validation_issues_artist (album : Album) :
  validation_issues album !! "artist"
  = if decide (Artist album = "") then Some required else None.
Proof. unfold validation_issues. repeat case_decide; by simplify_map_eq. Qed.

Lemma validation_issues_price (album : Album) :
  validation_issues album !! "price"
  = if decide (0 ≤ Price album < 100000) then None else Some out_of_range.
Proof.
  unfold validation_issues. repeat case_decide; simplify_map_eq; done || lia.
Qed.

Lemma validation_issues_valid (album : Album) :
  validation_issues album = ∅ ↔ valid album.
Proof.
  split.
  - intros Hempty.
    pose proof (validation_issues_id album) as Hi.
    pose proof (validation_issues_title album) as Ht.
    pose proof (validation_issues_artist album) as Ha.
    pose proof (validation_issues_price album) as Hp.
    rewrite Hempty, lookup_empty in Hi, Ht, Ha, Hp.
    repeat case_decide; done.
  - intros (Hi & Ht & Ha & Hp). unfold validation_issues.
    rewrite !decide_False by (done || lia). done.
Qed.

Lemma addAlbum_decoded (r : Request) (b : string) (album : Album) (d : D) :
  Body r = (b, None) → json_Unmarshal b Album_zero = (album, None) →
  addAlbum json_Unmarshal r (NewResponseWriter, d)
  = if decide (validation_issues album = ∅)
    then match AddAlbum album d with
         | (err, d') =>
             if errors_Is err ErrAlreadyExists
             then Some (tt, (response ∅ 409 (error_doc 409 "already-exists"), d'))
             else match err with
                  | Some _ => Some (tt, (response ∅ 500 (error_doc 500 "database"), d'))
                  | None => Some (tt, (response ∅ 201 (marshal album), d'))
                  end
         end
    else Some (tt, (response ∅ 400
                      (error_data_doc 400 "validation"
                         (marshal (validation_issues album))), d)).
Proof.
  intros Hb Hu. unfold addAlbum, mbind, handler_bind.
  rewrite (readJSON_ok r b Album_zero album _ Hb Hu). simpl.
  case_decide as Hissues.
  - rewrite bool_decide_eq_false_2
      by (rewrite Hissues, map_size_empty; lia).
    unfold db_call, NewResponseWriter.
    destruct (AddAlbum album d) as [err d'].
    destruct (errors_Is err ErrAlreadyExists); [done|].
    by destruct err.
  - rewrite bool_decide_eq_true_2.
    + unfold NewResponseWriter. rewrite jsonError_fresh.
      by rewrite marshal_error_data.
    + apply Nat.neq_0_lt_0. by rewrite map_size_empty_iff.
Qed.

(** C5. Every violation of a create payload is collected: the issues map
    holds [required] for each of id, title and artist that is empty and
    [out-of-range] for a price outside the range, each independently of
    the others.  When there is any issue the response is one 400 with the
    kind validation whose data is that whole map, and no method of the
    database is called, so its state is unchanged; with title and artist
    both empty the data holds a [required] issue for both. *)
Theorem addAlbum_collects_issues (r : Request) (d : D) (b : string) (album : Album) :
  Method r = "POST" → URL_Path r = "/albums" →
  Body r = (b, None) → json_Unmarshal b Album_zero = (album, None) →
  let issues := validation_issues album in
  issues !! "id" = (if decide (ID album = "") then Some required else None) ∧
  issues !! "title" = (if decide (Title album = "") then Some required else None) ∧
  issues !! "artist" = (if decide (Artist album = "") then Some required else None) ∧
  issues !! "price" = (if decide (0 ≤ Price album < 100000) then None
                       else Some out_of_range) ∧
  (issues ≠ ∅ →
   serve json_Unmarshal r d
   = Some (response ∅ 400 (error_data_doc 400 "validation" (marshal issues)), d) ∧
   ∀ field, json_get field (marshal issues) = marshal <$> issues !! field) ∧
  (Title album = "" → Artist album = "" →
   issues ≠ ∅ ∧
   json_get "title" (marshal issues) = Some (JObject [("error", JString "required")]) ∧
   json_get "artist" (marshal issues) = Some (JObject [("error", JString "required")])).
Proof.
  intros Hm Hp Hb Hu issues. subst issues.
  split; [apply validation_issues_id|].
  split; [apply validation_issues_title|].
  split; [apply validation_issues_artist|].
  split; [apply validation_issues_price|].
  split.
  - intros Hissues. split; [|intros field; apply json_get_map].
    unfold serve. rewrite ServeHTTP_POST_albums by done.
    rewrite (addAlbum_decoded r b album d Hb Hu).
    by rewrite decide_False.
  - intros Ht Ha. rewrite !json_get_map.
    rewrite validation_issues_title, validation_issues_artist.
    rewrite !decide_True by done. split; [|done].
    intros Hempty. pose proof (validation_issues_title album) as Hl.
    rewrite Hempty, lookup_empty, decide_True in Hl by done. done.
Qed.

(** C4. A create request fails validation on the field price exactly when
    the price is outside [0, 100000): outside it the response is a 400 of
    kind validation whose data has the out-of-range issue under price and
    the database is left alone; inside it no response carries an issue
    for price. *)
Theorem addAlbum_price_range (r : Request) (d : D) (b : string) (album : Album) :
  Method r = "POST" → URL_Path r = "/albums" →
  Body r = (b, None) → json_Unmarshal b Album_zero = (album, None) →
  ∃ w d' doc,
    serve json_Unmarshal r d = Some (w, d') ∧ written w = [doc] ∧
    if decide (0 ≤ Price album < 100000)
    then validation_issues album !! "price" = None ∧
         json_get "data" doc ≫= json_get "price" = None
    else status w = Some 400 ∧ d' = d ∧
         json_get "error" doc = Some (JString "validation") ∧
         json_get "data" doc ≫= json_get "price"
         = Some (JObject [("error", JString "out-of-range");
                          ("message", JString "price must be between 0 and $1000")]).
Proof.
  intros Hm Hp Hb Hu. unfold serve.
  rewrite ServeHTTP_POST_albums by done.
  rewrite (addAlbum_decoded r b album d Hb Hu).
  pose proof (validation_issues_price album) as Hprice.
  destruct (decide (validation_issues album = ∅)) as [Hissues|Hissues].
  - rewrite Hissues, lookup_empty in Hprice.
    destruct (AddAlbum album d) as [err d'].
    destruct (errors_Is err ErrAlreadyExists);
      [|destruct err]; eexists _, _, _; (split; [reflexivity|]);
      (split; [reflexivity|]); (case_decide; [|done]);
      (split; [by rewrite Hissues|]); try done.
    unfold marshal, Album_Marshal. simpl.
    by destruct (bool_decide (Price album = 0)).
  - eexists _, _, _. split; [reflexivity|]. split; [reflexivity|].
    case_decide.
    + split; [done|]. by rewrite json_get_error_data, json_get_map, Hprice.
    + repeat split. by rewrite json_get_error_data, json_get_map, Hprice.
Qed.

(** *** Routing *)

Lemma ServeHTTP_album_path (r : Request) (id : string) (c : ResponseWriter * D) :
  album_path (URL_Path r) id →
  ServeHTTP json_Unmarshal r c
  = if decide (Method r = "GET") then getAlbumByID r id c
    else (Header_Set "Allow" "GET";;
          jsonError StatusMethodNotAllowed ErrorMethodNotAllowed ∅) c.
Proof.
  intros Hp. unfold ServeHTTP.
  rewrite decide_False by (by eapply album_path_not_albums).
  rewrite (match_reAlbumsID _ id Hp).
  by destruct (decide (Method r = "GET")).
Qed.

Lemma ServeHTTP_other_path (r : Request) (c : ResponseWriter * D) :
  URL_Path r ≠ "/albums" → (∀ id, ¬ album_path (URL_Path r) id) →
  ServeHTTP json_Unmarshal r c = jsonError StatusNotFound ErrorNotFound ∅ c.
Proof.
  intros Hp Hno. unfold ServeHTTP.
  rewrite decide_False by done.
  by rewrite (match_reAlbumsID_none _ Hno).
Qed.

(** C7. Routing classifies a request by path and method into one outcome.
    The exact path /albums comes first: GET lists, POST creates, any other
    method is a 405 with [Allow: GET, POST].  A path /albums/{id}, with
    {id} one or more non-slash bytes, is never /albums and has one id: GET
    fetches it, any other method is a 405 with [Allow: GET].  Every other
    path is a 404, whatever the method; so are /albums/ with an empty id
    and a path with a slash inside the id segment.  The 405 and 404
    responses leave the database alone. *)
Theorem ServeHTTP_routing (r : Request) (w : ResponseWriter) (d : D) :
  (URL_Path r = "/albums" →
     (Method r = "GET" → ServeHTTP json_Unmarshal r (w, d) = getAlbums r (w, d)) ∧
     (Method r = "POST" →
        ServeHTTP json_Unmarshal r (w, d) = addAlbum json_Unmarshal r (w, d)) ∧
     (Method r ≠ "GET" → Method r ≠ "POST" →
        serve json_Unmarshal r d
        = Some (response (<["Allow" := "GET, POST"]> ∅) 405
                  (error_doc 405 "method-not-allowed"), d))) ∧
  (∀ id, album_path (URL_Path r) id →
     URL_Path r ≠ "/albums" ∧
     (∀ id', album_path (URL_Path r) id' → id' = id) ∧
     (Method r = "GET" →
        ServeHTTP json_Unmarshal r (w, d) = getAlbumByID r id (w, d)) ∧
     (Method r ≠ "GET" →
        serve json_Unmarshal r d
        = Some (response (<["Allow" := "GET"]> ∅) 405
                  (error_doc 405 "method-not-allowed"), d))) ∧
  (URL_Path r ≠ "/albums" → (∀ id, ¬ album_path (URL_Path r) id) →
     serve json_Unmarshal r d
     = Some (response ∅ 404 (error_doc 404 "not-found"), d)) ∧
  (URL_Path r = "/albums/" →
     serve json_Unmarshal r d
     = Some (response ∅ 404 (error_doc 404 "not-found"), d)) ∧
  (∀ id rest, URL_Path r = "/albums/" +:+ id +:+ "/" +:+ rest →
     serve json_Unmarshal r d
     = Some (response ∅ 404 (error_doc 404 "not-found"), d)).
Proof.
  assert (URL_Path r ≠ "/albums" → (∀ id, ¬ album_path (URL_Path r) id) →
          serve json_Unmarshal r d
          = Some (response ∅ 404 (error_doc 404 "not-found"), d)) as Hother.
  { intros Hp Hno. unfold serve. by rewrite ServeHTTP_other_path. }
  split; [|split; [|split; [|split]]].
  - intros Hp. split; [|split].
    + intros Hm. unfold ServeHTTP. by rewrite Hp, Hm.
    + intros Hm. by apply ServeHTTP_POST_albums.
    + intros Hget Hpost. unfold serve, ServeHTTP.
      rewrite decide_True, !decide_False by done. reflexivity.
  - intros id Hid. split; [by eapply album_path_not_albums|].
    split; [intros id' Hid'; by eapply album_path_unique|].
    split.
    + intros Hm. rewrite (ServeHTTP_album_path r id) by done.
      by rewrite decide_True.
    + intros Hm. unfold serve. rewrite (ServeHTTP_album_path r id) by done.
      by rewrite decide_False.
  - done.
  - intros Hp. apply Hother; [by rewrite Hp|].
    intros id (Hid & Hne & _). rewrite Hp in Hid.
    apply Hne. by injection Hid.
  - intros id rest Hp. apply Hother; [by rewrite Hp|].
    intros id' (Hid & _ & Hslash). rewrite Hp in Hid.
    apply (inj (String.app "/albums/")) in Hid. subst id'.
    apply Hslash. clear. induction id as [|a id IH]; [left|by right].
Qed.
(** [ServeHTTP] never panics: the pattern has one group and [match] is
    given one variable. *)
Lemma reAlbumsID_cases (path : string) :
  reAlbumsID path = [] ∨ ∃ id, reAlbumsID path = [path; id].
Proof. unfold reAlbumsID. repeat case_match; eauto. Qed.

Lemma writeJSON_total `{Marshal A} (code : Z) (v : A) (c : ResponseWriter * D) :
  is_Some (writeJSON code v c).
Proof.
  destruct c as [w d]. unfold writeJSON, mbind, handler_bind. simpl. by eexists.
Qed.

Lemma jsonError_total (code : Z) (kind : string) (data : gmap string any)
    (c : ResponseWriter * D) :
  is_Some (jsonError code kind data c).
Proof. apply writeJSON_total. Qed.

Lemma ServeHTTP_total (r : Request) (c : ResponseWriter * D) :
  is_Some (ServeHTTP json_Unmarshal r c).
Proof.
  destruct c as [w d]. unfold ServeHTTP, match_.
  destruct (reAlbumsID_cases (URL_Path r)) as [->|[id ->]]; simpl;
    unfold getAlbums, addAlbum, getAlbumByID, readJSON, db_call, mbind,
      handler_bind; simpl.
  all: repeat (case_decide || case_match || simplify_eq/=);
    eauto using writeJSON_total, jsonError_total.
Qed.

End ServerFacts.

(** ** The server over the in-memory database *)
Section MemoryServer.
Variable range_map : gmap string Album → list (string * Album).
Variable json_Unmarshal : string → Album → Album * option error.

Lemma marshal_Album_inj (a b : Album) : marshal a = marshal b → a = b.
Proof.
  destruct a as [i1 t1 r1 p1], b as [i2 t2 r2 p2].
  unfold marshal, Album_Marshal, omitempty. simpl.
  do 2 case_bool_decide; simpl; intros [=]; by subst.
Qed.

(** C6. For every id the database has no entry for, and an id that was
    never inserted has none ([add_all_lookup_None]), getAlbum(id) fails
    with ErrDoesNotExist, and a GET request for /albums/{id} is answered
    with status 404 and the envelope {"status":404,"error":"not-found"};
    the database is left as it was. *)
Theorem GetAlbumByID_missing (d : gmap string Album) (id : string) (r : Request) :
  d !! id = None → Method r = "GET" → URL_Path r = "/albums/" +:+ id →
  MemoryDatabase.GetAlbumByID id d = (Album_zero, Some ErrDoesNotExist, d) ∧
  serve (DB := MemoryDatabase_Database range_map) json_Unmarshal r d
  = Some (response ∅ 404
            (JObject [("status", JNumber 404); ("error", JString "not-found")]),
          d).
Proof.
  intros Hd Hm Hp.
  assert (MemoryDatabase.GetAlbumByID id d = (Album_zero, Some ErrDoesNotExist, d))
    as Hget by (by rewrite MemoryDatabaseFacts.GetAlbumByID_unfold, Hd).
  split; [done|]. unfold serve.
  destruct (decide (id ≠ "" ∧ "/"%char ∉ String.list_ascii_of_string id))
    as [[Hne Hslash]|Hbad].
  - rewrite (ServeHTTP_album_path json_Unmarshal r id) by done.
    rewrite decide_True by done.
    unfold getAlbumByID, mbind, handler_bind, db_call, NewResponseWriter.
    simpl. by rewrite Hget.
  - rewrite ServeHTTP_other_path; [done| by rewrite Hp |].
    intros id' (Hid & Hne & Hslash). rewrite Hp in Hid.
    apply (inj (String.app "/albums/")) in Hid. subst id'. by apply Hbad.
Qed.

(** An id that no [AddAlbum] call since [NewMemoryDatabase] was for is not
    found. *)
Lemma GetAlbumByID_never_inserted (l : list Album) (id : string) :
  id ∉ ID <$> l →
  (MemoryDatabase.GetAlbumByID id
     (MemoryDatabase.add_all l MemoryDatabase.NewMemoryDatabase)).1
  = (Album_zero, Some ErrDoesNotExist).
Proof.
  intros Hid. rewrite MemoryDatabaseFacts.GetAlbumByID_unfold.
  rewrite (proj2 (MemoryDatabaseFacts.add_all_lookup_None l _ id)); [done|].
  split; [apply lookup_empty|done].
Qed.

(** C8. A POST to /albums whose body decodes to a valid album with an id
    that is not stored yet is answered 201 with the document of exactly
    that album, from which the album can be read back; [AddAlbum]
    returned no error, and the album is the record now stored under its
    id. *)
Theorem addAlbum_created (d : gmap string Album) (r : Request) (b : string)
    (album : Album) :
  Method r = "POST" → URL_Path r = "/albums" →
  Body r = (b, None) → json_Unmarshal b Album_zero = (album, None) →
  valid album → d !! ID album = None →
  ∃ d', serve (DB := MemoryDatabase_Database range_map) json_Unmarshal r d
        = Some (response ∅ 201 (marshal album), d') ∧
        MemoryDatabase.AddAlbum album d = (None, d') ∧
        d' !! ID album = Some album ∧
        MemoryDatabase.GetAlbumByID (ID album) d' = (album, None, d') ∧
        ∀ album', marshal album' = marshal album → album' = album.
Proof.
  intros Hm Hp Hb Hu Hvalid Hfresh.
  assert (MemoryDatabase.AddAlbum album d = (None, <[ID album := album]> d))
    as Hadd by (by rewrite MemoryDatabaseFacts.AddAlbum_unfold, Hfresh).
  assert (MemoryDatabase.GetAlbumByID (ID album) (<[ID album := album]> d)
          = (album, None, <[ID album := album]> d))
    as Hget by (by rewrite MemoryDatabaseFacts.GetAlbumByID_unfold, lookup_insert_eq).
  exists (<[ID album := album]> d).
  split; [|split; [done|split; [|split; [done|]]]].
  - unfold serve. rewrite ServeHTTP_POST_albums by done.
    rewrite (addAlbum_decoded json_Unmarshal r b album d Hb Hu).
    rewrite decide_True by (by apply validation_issues_valid).
    simpl. by rewrite Hadd.
  - apply lookup_insert_eq.
  - intros album'. apply marshal_Album_inj.
Qed.
End MemoryServer.

(** ** The scenarios of the specification, on the server of [main] *)

Lemma addAlbum_malformed_json_witness :
  main_serve (decode_fails "invalid character 'o' in literal null (expecting 'u')")
    (post_albums "not valid json") main_db
  = Some (response ∅ 400
            (JObject [("status", JNumber 400);
                      ("error", JString "malformed-json");
                      ("data", JObject
                         [("message",
                           JString "invalid character 'o' in literal null (expecting 'u')")])]),
          main_db).
Proof.
  apply (addAlbum_malformed_json (DB := MemoryDatabase_Database map_to_list)
           (decode_fails "invalid character 'o' in literal null (expecting 'u')")
           (post_albums "not valid json") main_db "not valid json" Album_zero
           (errorString "invalid character 'o' in literal null (expecting 'u')"));
    reflexivity.
Defined.

Lemma GetAlbumByID_missing_witness :
  MemoryDatabase.GetAlbumByID "missing" main_db
  = (Album_zero, Some ErrDoesNotExist, main_db) ∧
  main_serve (decode_as Album_zero) (request "GET" "/albums/missing") main_db
  = Some (response ∅ 404
            (JObject [("status", JNumber 404); ("error", JString "not-found")]),
          main_db).
Proof.
  apply (GetAlbumByID_missing map_to_list (decode_as Album_zero) main_db "missing"
           (request "GET" "/albums/missing"));
    vm_compute; reflexivity.
Defined.

Lemma addAlbum_created_witness :
  ∃ d', main_serve (decode_as (mkAlbum "a1" "9th Symphony" "Beethoven" 795))
          (post_albums "{}") MemoryDatabase.NewMemoryDatabase
        = Some (response ∅ 201
                  (JObject [("id", JString "a1"); ("title", JString "9th Symphony");
                            ("artist", JString "Beethoven"); ("price", JNumber 795)]),
                d') ∧
        d' !! "a1" = Some (mkAlbum "a1" "9th Symphony" "Beethoven" 795).
Proof.
  destruct (addAlbum_created map_to_list
              (decode_as (mkAlbum "a1" "9th Symphony" "Beethoven" 795))
              MemoryDatabase.NewMemoryDatabase (post_albums "{}") "{}"
              (mkAlbum "a1" "9th Symphony" "Beethoven" 795))
    as (d' & Hserve & _ & Hstored & _); try reflexivity.
  - unfold valid; simpl. repeat split; (discriminate || lia).
  - exists d'. split; [exact Hserve|exact Hstored].
Defined.

Lemma addAlbum_collects_issues_witness :
  main_serve (decode_as (mkAlbum "a3" "" "" 795)) (post_albums "{}") main_db
  = Some (response ∅ 400
            (error_data_doc 400 "validation"
               (marshal (validation_issues (mkAlbum "a3" "" "" 795)))), main_db) ∧
  json_get "title" (marshal (validation_issues (mkAlbum "a3" "" "" 795)))
  = Some (JObject [("error", JString "required")]) ∧
  json_get "artist" (marshal (validation_issues (mkAlbum "a3" "" "" 795)))
  = Some (JObject [("error", JString "required")]).
Proof.
  destruct (addAlbum_collects_issues (DB := MemoryDatabase_Database map_to_list)
              (decode_as (mkAlbum "a3" "" "" 795)) (post_albums "{}") main_db "{}"
              (mkAlbum "a3" "" "" 795) eq_refl eq_refl eq_refl eq_refl)
    as (_ & _ & _ & _ & Hserve & Hboth).
  destruct (Hboth eq_refl eq_refl) as (Hissues & Htitle & Hartist).
  destruct (Hserve Hissues) as [Hresponse _].
  split; [exact Hresponse|]. split; [exact Htitle|exact Hartist].
Defined.

Lemma addAlbum_price_range_witness :
  (∃ w d' doc,
      main_serve (decode_as (priced 100000)) (post_albums "{}") main_db = Some (w, d') ∧
      written w = [doc] ∧ status w = Some 400 ∧ d' = main_db ∧
      json_get "error" doc = Some (JString "validation") ∧
      json_get "data" doc ≫= json_get "price"
      = Some (JObject [("error", JString "out-of-range");
                       ("message", JString "price must be between 0 and $1000")])) ∧
  (∃ w d' doc,
      main_serve (decode_as (priced (-1))) (post_albums "{}") main_db = Some (w, d') ∧
      written w = [doc] ∧ status w = Some 400 ∧ d' = main_db ∧
      json_get "error" doc = Some (JString "validation") ∧
      json_get "data" doc ≫= json_get "price"
      = Some (JObject [("error", JString "out-of-range");
                       ("message", JString "price must be between 0 and $1000")])) ∧
  (∃ w d' doc,
      main_serve (decode_as (priced 99999)) (post_albums "{}") main_db = Some (w, d') ∧
      written w = [doc] ∧ validation_issues (priced 99999) !! "price" = None ∧
      json_get "data" doc ≫= json_get "price" = None) ∧
  (∃ w d' doc,
      main_serve (decode_as (priced 0)) (post_albums "{}") main_db = Some (w, d') ∧
      written w = [doc] ∧ validation_issues (priced 0) !! "price" = None ∧
      json_get "data" doc ≫= json_get "price" = None).
Proof.
  repeat split.
  - exact (addAlbum_price_range (DB := MemoryDatabase_Database map_to_list)
             (decode_as (priced 100000)) (post_albums "{}") main_db "{}"
             (priced 100000) eq_refl eq_refl eq_refl eq_refl).
  - exact (addAlbum_price_range (DB := MemoryDatabase_Database map_to_list)
             (decode_as (priced (-1))) (post_albums "{}") main_db "{}"
             (priced (-1)) eq_refl eq_refl eq_refl eq_refl).
  - exact (addAlbum_price_range (DB := MemoryDatabase_Database map_to_list)
             (decode_as (priced 99999)) (post_albums "{}") main_db "{}"
             (priced 99999) eq_refl eq_refl eq_refl eq_refl).
  - exact (addAlbum_price_range (DB := MemoryDatabase_Database map_to_list)
             (decode_as (priced 0)) (post_albums "{}") main_db "{}"
             (priced 0) eq_refl eq_refl eq_refl eq_refl).
Defined.

Lemma ServeHTTP_routing_witness :
  main_serve (decode_as Album_zero) (request "DELETE" "/albums") main_db
  = Some (response (<["Allow" := "GET, POST"]> ∅) 405
            (error_doc 405 "method-not-allowed"), main_db) ∧
  main_serve (decode_as Album_zero) (request "PUT" "/albums/a1") main_db
  = Some (response (<["Allow" := "GET"]> ∅) 405
            (error_doc 405 "method-not-allowed"), main_db) ∧
  main_serve (decode_as Album_zero) (request "GET" "/artists") main_db
  = Some (response ∅ 404 (error_doc 404 "not-found"), main_db) ∧
  main_serve (decode_as Album_zero) (request "GET" "/albums/") main_db
  = Some (response ∅ 404 (error_doc 404 "not-found"), main_db) ∧
  main_serve (decode_as Album_zero) (request "GET" "/albums/a1/tracks") main_db
  = Some (response ∅ 404 (error_doc 404 "not-found"), main_db).
Proof.
  assert (album_path "/albums/a1" "a1") as Ha1.
  { split; [reflexivity|]. split; [discriminate|].
    simpl. rewrite !not_elem_of_cons.
    repeat split; (discriminate || apply not_elem_of_nil). }
  assert (∀ id, ¬ album_path "/artists" id) as Hartists.
  { intros id (Hid & _ & _). discriminate. }
  split; [|split; [|split; [|split]]].
  - destruct (ServeHTTP_routing (DB := MemoryDatabase_Database map_to_list)
                (decode_as Album_zero) (request "DELETE" "/albums")
                NewResponseWriter main_db) as (Halbums & _).
    destruct (Halbums eq_refl) as (_ & _ & Hother).
    apply Hother; discriminate.
  - destruct (ServeHTTP_routing (DB := MemoryDatabase_Database map_to_list)
                (decode_as Album_zero) (request "PUT" "/albums/a1")
                NewResponseWriter main_db) as (_ & Hid & _).
    destruct (Hid "a1" Ha1) as (_ & _ & _ & Hother).
    apply Hother; discriminate.
  - destruct (ServeHTTP_routing (DB := MemoryDatabase_Database map_to_list)
                (decode_as Album_zero) (request "GET" "/artists")
                NewResponseWriter main_db) as (_ & _ & Hnone & _).
    apply Hnone; [discriminate|exact Hartists].
  - destruct (ServeHTTP_routing (DB := MemoryDatabase_Database map_to_list)
                (decode_as Album_zero) (request "GET" "/albums/")
                NewResponseWriter main_db) as (_ & _ & _ & Hempty & _).
    apply Hempty; reflexivity.
  - destruct (ServeHTTP_routing (DB := MemoryDatabase_Database map_to_list)
                (decode_as Album_zero) (request "GET" "/albums/a1/tracks")
                NewResponseWriter main_db) as (_ & _ & _ & _ & Hslash).
    apply (Hslash "a1" "tracks"); reflexivity.
Defined.

(** * Further properties *)

(** ** match and the pattern *)

(** [bind_vars] overwrites the variables from index [i] on with the groups,
    and panics exactly when a group has no variable. *)
Lemma bind_vars_fits (i : nat) (groups vars : list string) :
  (i + length groups ≤ length vars)%nat →
  bind_vars i groups vars
  = Some (take i vars ++ groups ++ drop (i + length groups) vars).
Proof.
  revert i vars. induction groups as [|g groups IH]; intros i vars Hlen; simpl in *.
  - by rewrite Nat.add_0_r, take_drop.
  - rewrite decide_True by lia.
    rewrite IH by (rewrite length_insert; lia).
    rewrite take_insert_lt by lia.
    assert (is_Some (vars !! i)) as [x Hx] by (apply lookup_lt_is_Some; lia).
    rewrite (take_S_r vars i x Hx), insert_app_r_alt by (rewrite length_take; lia).
    rewrite length_take_le, Nat.sub_diag by lia. simpl.
    rewrite drop_insert_lt by lia.
    rewrite <- app_assoc. simpl. by rewrite Nat.add_succ_r.
Qed.

Lemma bind_vars_panics (i : nat) (groups vars : list string) :
  (length vars < i + length groups)%nat → groups ≠ [] →
  bind_vars i groups vars = None.
Proof.
  revert i vars. induction groups as [|g groups IH]; intros i vars Hlen Hne; [done|].
  simpl in *. case_decide; [|done].
  destruct groups as [|g' groups]; [simpl in *; lia|].
  apply IH; [|done]. rewrite length_insert. simpl in *. lia.
Qed.

(** X1. [match] on any pattern: when the pattern does not match, it returns
    false and leaves the variables alone; when it matches and there are at
    least as many variables as capturing groups, it returns true and the
    groups overwrite the first variables in order, the others kept; when
    there are more groups than variables, it panics. *)
Theorem match_binds (path : string) (pattern : Regexp) (vars : list string) :
  (pattern path = [] → match_ path pattern vars = Some (false, vars)) ∧
  (∀ whole groups, pattern path = whole :: groups →
     (length groups ≤ length vars)%nat →
     match_ path pattern vars
     = Some (true, groups ++ drop (length groups) vars)) ∧
  (∀ whole groups, pattern path = whole :: groups →
     (length vars < length groups)%nat →
     match_ path pattern vars = None).
Proof.
  unfold match_. split; [|split].
  - by intros ->.
  - intros whole groups -> Hlen. simpl.
    by rewrite (bind_vars_fits 0 groups vars Hlen).
  - intros whole groups -> Hlen. simpl.
    rewrite bind_vars_panics; [done|done|].
    intros ->. simpl in Hlen. lia.
Qed.

Lemma match_binds_witness :
  match_ "/artists" reAlbumsID ["x"; "y"] = Some (false, ["x"; "y"]) ∧
  match_ "/albums/a1" reAlbumsID ["x"; "y"] = Some (true, ["a1"; "y"]) ∧
  match_ "/albums/a1" reAlbumsID [] = None.
Proof.
  destruct (match_binds "/artists" reAlbumsID ["x"; "y"]) as (Hno & _ & _).
  destruct (match_binds "/albums/a1" reAlbumsID ["x"; "y"]) as (_ & Hfits & _).
  destruct (match_binds "/albums/a1" reAlbumsID []) as (_ & _ & Hpanic).
  split; [apply Hno; reflexivity|]. split.
  - apply (Hfits "/albums/a1" ["a1"]); [reflexivity|simpl; lia].
  - apply (Hpanic "/albums/a1" ["a1"]); [reflexivity|simpl; lia].
Defined.

(** X2. The pattern [^/albums/([^/]+)$] matches exactly the paths
    /albums/{id} with {id} one or more non-slash bytes, and its one group is
    that id; on every other path it finds nothing. *)
Theorem reAlbumsID_spec (path : string) :
  (∀ id, reAlbumsID path = [path; id] ↔ album_path path id) ∧
  (reAlbumsID path = [] ↔ ∀ id, ¬ album_path path id) ∧
  (reAlbumsID path = [] ∨ ∃ id, reAlbumsID path = [path; id]).
Proof.
  assert (∀ id, reAlbumsID path = [path; id] → album_path path id) as Hinv.
  { intros id. unfold reAlbumsID.
    destruct (trim_prefix "/albums/" path) as [rest|] eqn:Hp; [|done].
    apply trim_prefix_Some in Hp.
    destruct (span_non_slash rest) as [id' tail] eqn:Hs.
    destruct (bool_decide (id' ≠ "")) eqn:Hid; [|done].
    destruct (bool_decide (tail = "")) eqn:Htail; [|done].
    apply bool_decide_eq_true in Hid, Htail. subst tail.
    apply span_non_slash_end in Hs as [-> Hs].
    simpl. intros [= <-]. by repeat split. }
  split; [|split].
  - intros id. split; [apply Hinv|apply reAlbumsID_match].
  - split; [|apply reAlbumsID_no_match].
    intros Hnil id Hid. apply reAlbumsID_match in Hid. congruence.
  - apply reAlbumsID_cases.
Qed.

Lemma reAlbumsID_spec_witness :
  (reAlbumsID "/albums/a1" = ["/albums/a1"; "a1"] ↔ album_path "/albums/a1" "a1") ∧
  (reAlbumsID "/albums/" = [] ↔ ∀ id, ¬ album_path "/albums/" id).
Proof.
  split.
  - apply (reAlbumsID_spec "/albums/a1").
  - apply (reAlbumsID_spec "/albums/").
Defined.

(** ** More of the in-memory database *)
Module MemoryDatabaseMore.
Import MemoryDatabase MemoryDatabaseFacts.

Lemma le_ne_ltb (s1 s2 : string) : String.le s1 s2 → s1 ≠ s2 → String.ltb s1 s2 = true.
Proof.
  unfold String.le, String.ltb, String.leb. intros Hle Hne.
  destruct (String.compare s1 s2) eqn:E; [|done|done].
  by apply String.compare_eq_iff in E.
Qed.

Lemma strictly_sorted (l : list Album) :
  StronglySorted ID_le l → NoDup (ID <$> l) →
  StronglySorted (λ a b, ID_less a b = true) l.
Proof.
  induction 1 as [|x l Hl IH Hx]; intros Hnd; [constructor|].
  rewrite fmap_cons in Hnd. apply NoDup_cons in Hnd as [Hfresh Hnd].
  constructor; [by apply IH|].
  rewrite Forall_forall in Hx |- *. intros y Hy.
  apply le_ne_ltb; [by apply Hx|].
  intros Heq. apply Hfresh. rewrite Heq. by apply list_elem_of_fmap_2.
Qed.

Lemma keyed_reachable (l : list Album) : keyed (add_all l NewMemoryDatabase).
Proof. apply keyed_add_all, keyed_empty. Qed.

Lemma ID_less_Sorted (l : list Album) : Sorted ID_le (sort_Slice ID_less l).
Proof.
  apply (sort_Slice_Sorted ID_less ID_le); intros x y.
  - apply ltb_true_le.
  - apply ltb_false_le.
Qed.

(** X3. Whatever albums were sent to [AddAlbum] since [NewMemoryDatabase],
    duplicates and all, [GetAlbums] lists each id at most once, and its
    list is strictly ascending by id. *)
Theorem GetAlbums_strictly_ascending
    (range_map : gmap string Album → list (string * Album)) (l : list Album) :
  (∀ m, range_map m ≡ₚ map_to_list m) →
  ∃ albums,
    (GetAlbums range_map (add_all l NewMemoryDatabase)).1 = (albums, None) ∧
    NoDup (ID <$> albums) ∧
    StronglySorted (λ a b, String.ltb (ID a) (ID b) = true) albums.
Proof.
  intros Hrange. rewrite GetAlbums_unfold. eexists. split; [reflexivity|].
  assert (NoDup (ID <$> sort_Slice ID_less
                   (range_map (add_all l NewMemoryDatabase)).*2)) as Hnd.
  { rewrite sort_Slice_Permutation, Hrange.
    apply keyed_NoDup, keyed_reachable. }
  split; [done|].
  apply strictly_sorted; [|done].
  apply Sorted_StronglySorted; [apply _|apply ID_less_Sorted].
Qed.

Lemma GetAlbums_strictly_ascending_witness :
  ∃ albums,
    (GetAlbums (λ m, reverse (map_to_list m))
       (add_all [mkAlbum "b" "T" "A" 1; mkAlbum "a" "T" "A" 2; mkAlbum "b" "U" "B" 3]
          NewMemoryDatabase)).1 = (albums, None) ∧
    NoDup (ID <$> albums) ∧
    StronglySorted (λ a b, String.ltb (ID a) (ID b) = true) albums.
Proof.
  apply (GetAlbums_strictly_ascending (λ m, reverse (map_to_list m))).
  intros m. apply reverse_Permutation.
Defined.

Lemma AddAlbum_other (album : Album) (d : gmap string Album) (k : string) :
  k ≠ ID album → (AddAlbum album d).2 !! k = d !! k.
Proof.
  intros Hk. rewrite AddAlbum_unfold.
  destruct (d !! ID album); simpl; [done|]. by rewrite lookup_insert_ne.
Qed.

Lemma AddAlbum_keeps (album x : Album) (d : gmap string Album) (k : string) :
  d !! k = Some x → (AddAlbum album d).2 !! k = Some x.
Proof.
  intros Hk. rewrite AddAlbum_unfold.
  destruct (d !! ID album) eqn:E; simpl; [done|].
  rewrite lookup_insert_ne; [done|]. intros <-. congruence.
Qed.

(** X4. [AddAlbum], whether it succeeds or fails, touches no id but that of
    its album, and no sequence of [AddAlbum] calls ever changes or removes
    a record that is stored. *)
Theorem stored_records_stay (d : gmap string Album) :
  (∀ album k, k ≠ ID album → (AddAlbum album d).2 !! k = d !! k) ∧
  (∀ l k x, d !! k = Some x → add_all l d !! k = Some x).
Proof.
  split; [intros album k; apply AddAlbum_other|].
  intros l. revert d. induction l as [|a l IH]; intros d k x Hk; simpl; [done|].
  by apply IH, AddAlbum_keeps.
Qed.

Lemma stored_records_stay_witness :
  add_all [mkAlbum "a1" "Abbey Road" "The Beatles" 1500;
           mkAlbum "a3" "Kind of Blue" "Miles Davis" 1299] main_db !! "a1"
  = Some (mkAlbum "a1" "9th Symphony" "Beethoven" 795) ∧
  (AddAlbum (mkAlbum "a3" "Kind of Blue" "Miles Davis" 1299) main_db).2 !! "a2"
  = main_db !! "a2".
Proof.
  destruct (stored_records_stay main_db) as [Hother Hstay].
  split.
  - apply Hstay. vm_compute. reflexivity.
  - apply Hother. discriminate.
Defined.

Lemma add_all_lookup (l : list Album) (d : gmap string Album) (id : string) :
  add_all l d !! id
  = match d !! id with
    | Some x => Some x
    | None => head (filter (λ a, ID a = id) l)
    end.
Proof.
  revert d. induction l as [|a l IH]; intros d; simpl.
  - by destruct (d !! id).
  - rewrite IH. destruct (decide (ID a = id)) as [Ha|Ha].
    + rewrite filter_cons_True by done. rewrite AddAlbum_unfold. subst id.
      destruct (d !! ID a) eqn:E; simpl; [by rewrite E|].
      by rewrite lookup_insert_eq.
    + rewrite filter_cons_False by done.
      by rewrite AddAlbum_other.
Qed.

(** X5. Of several albums with one id sent to [AddAlbum], the first is the
    one stored: after any sequence of calls, the record under an id is the
    one that was there at the start or, if there was none, the first album
    of the sequence with that id. *)
Theorem first_album_wins (l : list Album) (d : gmap string Album) (id : string) :
  (∀ x, d !! id = Some x → add_all l d !! id = Some x) ∧
  (d !! id = None → add_all l d !! id = head (filter (λ a, ID a = id) l)).
Proof.
  rewrite add_all_lookup. split.
  - by intros x ->.
  - by intros ->.
Qed.

Lemma first_album_wins_witness :
  add_all [mkAlbum "b" "T" "A" 1; mkAlbum "a" "T" "A" 2; mkAlbum "b" "U" "B" 3]
    NewMemoryDatabase !! "b"
  = head (filter (λ a, ID a = "b")
            [mkAlbum "b" "T" "A" 1; mkAlbum "a" "T" "A" 2; mkAlbum "b" "U" "B" 3]).
Proof.
  apply (first_album_wins _ NewMemoryDatabase "b"). reflexivity.
Defined.

Lemma AddAlbum_commute (a b : Album) (d : gmap string Album) :
  ID a ≠ ID b →
  (AddAlbum b (AddAlbum a d).2).2 = (AddAlbum a (AddAlbum b d).2).2.
Proof.
  intros Hne. rewrite !AddAlbum_unfold.
  destruct (d !! ID a) eqn:Ea, (d !! ID b) eqn:Eb; simpl;
    rewrite ?lookup_insert_ne, ?Ea, ?Eb by done; simpl; try done.
  by apply insert_insert_ne.
Qed.

(** X6. Albums with distinct ids can be added in any order: the database
    they leave is the same. *)
Theorem add_all_any_order (l1 l2 : list Album) (d : gmap string Album) :
  NoDup (ID <$> l1) → l1 ≡ₚ l2 → add_all l1 d = add_all l2 d.
Proof.
  intros Hnd Hperm. revert d Hnd.
  induction Hperm as [|x l l' Hperm IH|x y l|l l' l'' H1 IH1 H2 IH2];
    intros d Hnd; simpl.
  - done.
  - rewrite fmap_cons in Hnd. apply NoDup_cons in Hnd as [_ Hnd]. by apply IH.
  - rewrite !fmap_cons in Hnd. apply NoDup_cons in Hnd as [Hy _].
    rewrite AddAlbum_commute; [done|].
    intros Heq. apply Hy. rewrite Heq. left.
  - rewrite IH1 by done. apply IH2. by rewrite <- H1.
Qed.

Lemma add_all_any_order_witness :
  add_all [mkAlbum "a2" "Hey Jude" "The Beatles" 2000;
           mkAlbum "a1" "9th Symphony" "Beethoven" 795] NewMemoryDatabase
  = add_all [mkAlbum "a1" "9th Symphony" "Beethoven" 795;
             mkAlbum "a2" "Hey Jude" "The Beatles" 2000] NewMemoryDatabase.
Proof.
  apply add_all_any_order.
  - simpl. apply NoDup_cons. split; [|apply NoDup_singleton].
    rewrite list_elem_of_singleton. discriminate.
  - apply Permutation_swap.
Defined.

(** X7. [GetAlbums] and [GetAlbumByID] agree on a database built by
    [AddAlbum] calls: the list has as many albums as the map has entries,
    and an album is in the list exactly when [GetAlbumByID] on its id
    returns that album with a nil error. *)
Theorem list_and_get_agree
    (range_map : gmap string Album → list (string * Album)) (l : list Album) :
  (∀ m, range_map m ≡ₚ map_to_list m) →
  let d := add_all l NewMemoryDatabase in
  ∃ albums,
    (GetAlbums range_map d).1 = (albums, None) ∧
    length albums = size d ∧
    ∀ a, a ∈ albums ↔ GetAlbumByID (ID a) d = (a, None, d).
Proof.
  intros Hrange d. rewrite GetAlbums_unfold. eexists. split; [reflexivity|].
  assert (sort_Slice ID_less (range_map d).*2 ≡ₚ stored d) as Hperm.
  { rewrite sort_Slice_Permutation. unfold stored. by rewrite Hrange. }
  split.
  - rewrite Hperm. unfold stored. by rewrite length_fmap, length_map_to_list.
  - intros a. rewrite Hperm, GetAlbumByID_unfold. unfold stored. split.
    + intros ([k a'] & -> & Hin)%list_elem_of_fmap. simpl.
      apply elem_of_map_to_list in Hin.
      rewrite (keyed_reachable l k a' Hin). by rewrite Hin.
    + destruct (d !! ID a) as [a'|] eqn:E; [|done]. intros [= ->].
      apply list_elem_of_fmap. exists (ID a, a). split; [done|].
      by apply elem_of_map_to_list.
Qed.

Lemma list_and_get_agree_witness :
  ∃ albums,
    (GetAlbums map_to_list main_db).1 = (albums, None) ∧
    length albums = size main_db ∧
    ∀ a, a ∈ albums ↔ GetAlbumByID (ID a) main_db = (a, None, main_db).
Proof.
  apply (list_and_get_agree map_to_list
           [mkAlbum "a1" "9th Symphony" "Beethoven" 795;
            mkAlbum "a2" "Hey Jude" "The Beatles" 2000]).
  reflexivity.
Defined.

(** X8. On a database built by [AddAlbum] calls the result of [GetAlbums]
    is determined: neither the order in which [range] visits the map nor
    the instability of [sort.Slice] can show in it, since it equals every
    list that holds the stored albums and is sorted by id. *)
Theorem GetAlbums_determined
    (range1 range2 : gmap string Album → list (string * Album)) (l : list Album) :
  (∀ m, range1 m ≡ₚ map_to_list m) → (∀ m, range2 m ≡ₚ map_to_list m) →
  let d := add_all l NewMemoryDatabase in
  GetAlbums range1 d = GetAlbums range2 d ∧
  ∀ albums, albums ≡ₚ stored d → Sorted ID_le albums →
            (GetAlbums range1 d).1 = (albums, None).
Proof.
  intros H1 H2 d. split.
  - apply GetAlbums_range_irrelevant; [done|done|apply keyed_reachable].
  - intros albums Hperm Hsorted. rewrite GetAlbums_unfold. simpl. f_equal.
    symmetry. apply sort_Slice_unique; [| |done].
    + rewrite H1. apply keyed_NoDup, keyed_reachable.
    + rewrite Hperm. unfold stored. by rewrite H1.
Qed.

Lemma GetAlbums_determined_witness :
  GetAlbums (λ m, reverse (map_to_list m)) main_db = GetAlbums map_to_list main_db ∧
  ∀ albums, albums ≡ₚ stored main_db → Sorted ID_le albums →
            (GetAlbums (λ m, reverse (map_to_list m)) main_db).1 = (albums, None).
Proof.
  apply (GetAlbums_determined (λ m, reverse (map_to_list m)) map_to_list
           [mkAlbum "a1" "9th Symphony" "Beethoven" 795;
            mkAlbum "a2" "Hey Jude" "The Beatles" 2000]).
  - intros m. apply reverse_Permutation.
  - reflexivity.
Defined.
End MemoryDatabaseMore.

(** ** More of the handlers, over any database *)
Section ServerMore.
Context {D : Type} {DB : Database D}.
Variable json_Unmarshal : string → Album → Album * option error.


(** X10. GET /albums/{id} calls [GetAlbumByID] once with the id of the
    path and answers by its error alone: 404 not-found when the error is
    [ErrDoesNotExist] or wraps it, 500 database on any other error, 200 with
    the album when it is nil. *)
Theorem getAlbumByID_outcome (r : Request) (id : string) (d d' : D)
    (album : Album) (err : option error) :
  Method r = "GET" → album_path (URL_Path r) id →
  GetAlbumByID id d = (album, err, d') →
  serve json_Unmarshal r d
  = Some (if errors_Is err ErrDoesNotExist
          then response ∅ 404 (error_doc 404 "not-found")
          else match err with
               | Some _ => response ∅ 500 (error_doc 500 "database")
               | None => response ∅ 200 (marshal album)
               end, d').
Proof.
  intros Hm Hp Hget. unfold serve.
  rewrite (ServeHTTP_album_path json_Unmarshal r id) by done.
  rewrite decide_True by done.
  unfold getAlbumByID, mbind, handler_bind, db_call, NewResponseWriter.
  rewrite Hget. destruct (errors_Is err ErrDoesNotExist); [done|].
  by destruct err.
Qed.

(** X11. POST /albums with a body that decodes to a valid album calls
    [AddAlbum] once with that album and answers by its error alone: 201
    with the album when it is nil, 409 already-exists when it is
    [ErrAlreadyExists] or wraps it, 500 database on any other error. *)
Theorem addAlbum_outcome (r : Request) (b : string) (album : Album) (d d' : D)
    (err : option error) :
  Method r = "POST" → URL_Path r = "/albums" →
  Body r = (b, None) → json_Unmarshal b Album_zero = (album, None) →
  valid album → AddAlbum album d = (err, d') →
  serve json_Unmarshal r d
  = Some (if errors_Is err ErrAlreadyExists
          then response ∅ 409 (error_doc 409 "already-exists")
          else match err with
               | Some _ => response ∅ 500 (error_doc 500 "database")
               | None => response ∅ 201 (marshal album)
               end, d').
Proof.
  intros Hm Hp Hb Hu Hvalid Hadd. unfold serve.
  rewrite ServeHTTP_POST_albums by done.
  rewrite (addAlbum_decoded json_Unmarshal r b album d Hb Hu).
  rewrite decide_True by (by apply validation_issues_valid).
  rewrite Hadd. destruct (errors_Is err ErrAlreadyExists); [done|].
  by destruct err.
Qed.

(** X12. When the body of a POST /albums cannot be read, the answer is 500
    with the bare envelope of kind internal; the decoder is not consulted
    and no method of the database is called. *)
Theorem addAlbum_body_unreadable (r : Request) (b : string) (e : error) (d : D) :
  Method r = "POST" → URL_Path r = "/albums" → Body r = (b, Some e) →
  serve json_Unmarshal r d
  = Some (response ∅ 500 (error_doc 500 "internal"), d).
Proof.
  intros Hm Hp Hb. unfold serve. rewrite ServeHTTP_POST_albums by done.
  unfold addAlbum, readJSON, mbind, handler_bind. by rewrite Hb.
Qed.

End ServerMore.


Lemma getAlbumByID_outcome_witness :
  serve (DB := failing (wrapError "lookup a1: does not exist" ErrDoesNotExist))
    (decode_as Album_zero) (request "GET" "/albums/a1") 0%nat
  = Some (response ∅ 404 (error_doc 404 "not-found"), 1%nat) ∧
  serve (DB := failing (errorString "disk full"))
    (decode_as Album_zero) (request "GET" "/albums/a1") 0%nat
  = Some (response ∅ 500 (error_doc 500 "database"), 1%nat).
Proof.
  assert (album_path "/albums/a1" "a1") as Ha1.
  { split; [reflexivity|]. split; [discriminate|].
    simpl. rewrite !not_elem_of_cons.
    repeat split; (discriminate || apply not_elem_of_nil). }
  split.
  - apply (getAlbumByID_outcome
             (DB := failing (wrapError "lookup a1: does not exist" ErrDoesNotExist))
             (decode_as Album_zero) (request "GET" "/albums/a1") "a1" 0%nat 1%nat
             Album_zero (Some (wrapError "lookup a1: does not exist" ErrDoesNotExist)));
      (reflexivity || exact Ha1).
  - apply (getAlbumByID_outcome (DB := failing (errorString "disk full"))
             (decode_as Album_zero) (request "GET" "/albums/a1") "a1" 0%nat 1%nat
             Album_zero (Some (errorString "disk full")));
      (reflexivity || exact Ha1).
Defined.

Lemma addAlbum_outcome_witness :
  serve (DB := failing (wrapError "insert a3: already exists" ErrAlreadyExists))
    (decode_as (priced 1299)) (post_albums "{}") 0%nat
  = Some (response ∅ 409 (error_doc 409 "already-exists"), 1%nat) ∧
  serve (DB := failing (errorString "disk full"))
    (decode_as (priced 1299)) (post_albums "{}") 0%nat
  = Some (response ∅ 500 (error_doc 500 "database"), 1%nat).
Proof.
  assert (valid (priced 1299)) as Hvalid.
  { unfold valid; simpl. repeat split; (discriminate || lia). }
  split.
  - apply (addAlbum_outcome
             (DB := failing (wrapError "insert a3: already exists" ErrAlreadyExists))
             (decode_as (priced 1299)) (post_albums "{}") "{}" (priced 1299)
             0%nat 1%nat
             (Some (wrapError "insert a3: already exists" ErrAlreadyExists)));
      (reflexivity || exact Hvalid).
  - apply (addAlbum_outcome (DB := failing (errorString "disk full"))
             (decode_as (priced 1299)) (post_albums "{}") "{}" (priced 1299)
             0%nat 1%nat (Some (errorString "disk full")));
      (reflexivity || exact Hvalid).
Defined.

Lemma addAlbum_body_unreadable_witness :
  serve (DB := failing (errorString "disk full")) (decode_as (priced 1299))
    (mkRequest "POST" "/albums" ("{", Some (errorString "unexpected EOF"))) 0%nat
  = Some (response ∅ 500 (error_doc 500 "internal"), 0%nat).
Proof.
  apply (addAlbum_body_unreadable (DB := failing (errorString "disk full"))
           (decode_as (priced 1299))
           (mkRequest "POST" "/albums" ("{", Some (errorString "unexpected EOF")))
           "{" (errorString "unexpected EOF") 0%nat); reflexivity.
Defined.

(** ** The shape of every response *)
Section ServerShape.
Context {D : Type} {DB : Database D}.
Variable json_Unmarshal : string → Album → Album * option error.

Lemma well_formed_envelope (code : Z) (kind : string) (doc : json) :
  (code, kind) ∈ error_table → code ≠ StatusMethodNotAllowed →
  json_get "status" doc = Some (JNumber code) →
  json_get "error" doc = Some (JString kind) →
  well_formed (response ∅ code doc).
Proof.
  intros Htable Hcode Hstatus Hkind. exists code, doc.
  split; [done|]. split; [done|]. split; [apply lookup_insert_eq|].
  right. exists kind. split; [done|]. split; [done|]. split; [done|].
  simpl. rewrite lookup_insert_ne, lookup_empty by done.
  split; [by intros [? ?]|done].
Qed.

Lemma well_formed_not_allowed (allow : string) :
  well_formed
    (response (<["Allow" := allow]> ∅) StatusMethodNotAllowed
       (error_doc StatusMethodNotAllowed ErrorMethodNotAllowed)).
Proof.
  eexists _, _. split; [reflexivity|]. split; [reflexivity|].
  split; [apply lookup_insert_eq|].
  right. exists ErrorMethodNotAllowed.
  split; [unfold error_table; set_solver|].
  split; [reflexivity|]. split; [reflexivity|].
  simpl. rewrite lookup_insert_ne, lookup_insert_eq by done. split; [done|by eexists].
Qed.

Lemma well_formed_album (code : Z) (album : Album) :
  code ∈ [StatusOK; StatusCreated] →
  well_formed (response ∅ code (marshal album)).
Proof.
  intros Hcode. eexists _, _. split; [reflexivity|]. split; [reflexivity|].
  split; [apply lookup_insert_eq|].
  left. split; [done|]. split.
  - simpl. by rewrite lookup_insert_ne, lookup_empty.
  - unfold marshal, Album_Marshal. simpl.
    by destruct (bool_decide (Price album = 0)).
Qed.

Lemma well_formed_albums (albums : list Album) :
  well_formed (response ∅ StatusOK (marshal albums)).
Proof.
  eexists _, _. split; [reflexivity|]. split; [reflexivity|].
  split; [apply lookup_insert_eq|].
  left. split; [set_solver|]. split; [|done].
  simpl. by rewrite lookup_insert_ne, lookup_empty.
Qed.

(** X13. Whatever the request, the decoder and the database do, [ServeHTTP]
    does not panic and leaves a well-formed response: one status code, the
    content type [application/json; charset=utf-8], one document.  The
    document of a 200 or 201 has no error member; any other response is an
    error envelope whose status member repeats the status code and whose
    kind is the one that goes with the code; the Allow header is set on a
    405 and on nothing else. *)
Theorem every_response_well_formed (r : Request) (d : D) :
  ∃ w d', serve json_Unmarshal r d = Some (w, d') ∧ well_formed w.
Proof.
  assert (∀ code kind, (code, kind) ∈ error_table → code ≠ StatusMethodNotAllowed →
          well_formed (response ∅ code (error_doc code kind))) as Hbare.
  { intros code kind ??. by apply (well_formed_envelope code kind). }
  assert (∀ code kind data, (code, kind) ∈ error_table →
          code ≠ StatusMethodNotAllowed →
          well_formed (response ∅ code (error_data_doc code kind data))) as Hdata.
  { intros code kind data ??. by apply (well_formed_envelope code kind). }
  destruct (decide (URL_Path r = "/albums")) as [Hp|Hp].
  - destruct (decide (Method r = "GET")) as [Hget|Hget];
      [|destruct (decide (Method r = "POST")) as [Hpost|Hpost]].
    + unfold serve, ServeHTTP. rewrite !decide_True by done.
      unfold getAlbums, mbind, handler_bind, db_call, NewResponseWriter.
      destruct (GetAlbums d) as [[albums [e|]] d'];
        eexists _, _; (split; [reflexivity|]).
      * apply Hbare; [unfold error_table; set_solver|done].
      * apply well_formed_albums.
    + unfold serve. rewrite ServeHTTP_POST_albums by done.
      destruct (Body r) as [b [e|]] eqn:Hb.
      { unfold addAlbum, readJSON, mbind, handler_bind. rewrite Hb.
        eexists _, _. split; [reflexivity|].
        apply Hbare; [unfold error_table; set_solver|done]. }
      destruct (json_Unmarshal b Album_zero) as [album [e|]] eqn:Hu.
      { unfold addAlbum, mbind, handler_bind.
        rewrite (readJSON_malformed json_Unmarshal r b Album_zero album e d Hb Hu).
        eexists _, _. split; [reflexivity|].
        apply Hdata; [unfold error_table; set_solver|done]. }
      rewrite (addAlbum_decoded json_Unmarshal r b album d Hb Hu).
      case_decide.
      * destruct (AddAlbum album d) as [err d'].
        destruct (errors_Is err ErrAlreadyExists); [|destruct err];
          eexists _, _; (split; [reflexivity|]).
        -- apply Hbare; [unfold error_table; set_solver|done].
        -- apply Hbare; [unfold error_table; set_solver|done].
        -- apply well_formed_album. set_solver.
      * eexists _, _. split; [reflexivity|].
        apply Hdata; [unfold error_table; set_solver|done].
    + unfold serve, ServeHTTP. rewrite decide_True, !decide_False by done.
      eexists _, _. split; [reflexivity|]. apply well_formed_not_allowed.
  - unfold serve, ServeHTTP, match_. rewrite decide_False by done.
    destruct (reAlbumsID_cases (URL_Path r)) as [->|[id ->]]; simpl.
    + eexists _, _. split; [reflexivity|].
      apply Hbare; [unfold error_table; set_solver|done].
    + destruct (decide (Method r = "GET")) as [Hget|Hget].
      * unfold getAlbumByID, mbind, handler_bind, db_call, NewResponseWriter.
        destruct (GetAlbumByID id d) as [[album err] d'].
        destruct (errors_Is err ErrDoesNotExist); [|destruct err];
          eexists _, _; (split; [reflexivity|]).
        -- apply Hbare; [unfold error_table; set_solver|done].
        -- apply Hbare; [unfold error_table; set_solver|done].
        -- apply well_formed_album. set_solver.
      * eexists _, _. split; [reflexivity|]. apply well_formed_not_allowed.
Qed.
End ServerShape.

(** ** More of the server over the in-memory database *)
Section MemoryServerMore.
Variable range_map : gmap string Album → list (string * Album).
Variable json_Unmarshal : string → Album → Album * option error.

Lemma serve_GET_album (r : Request) (id : string) (d : gmap string Album) :
  Method r = "GET" → album_path (URL_Path r) id →
  serve (DB := MemoryDatabase_Database range_map) json_Unmarshal r d
  = Some (match d !! id with
          | Some album => response ∅ 200 (marshal album)
          | None => response ∅ 404 (error_doc 404 "not-found")
          end, d).
Proof.
  intros Hm Hp. unfold serve.
  rewrite (ServeHTTP_album_path json_Unmarshal r id) by done.
  rewrite decide_True by done.
  unfold getAlbumByID, mbind, handler_bind, db_call, NewResponseWriter. simpl.
  rewrite MemoryDatabaseFacts.GetAlbumByID_unfold.
  by destruct (d !! id).
Qed.

Lemma serve_GET_not_album (r : Request) (d : gmap string Album) :
  URL_Path r ≠ "/albums" → (∀ id, ¬ album_path (URL_Path r) id) →
  serve (DB := MemoryDatabase_Database range_map) json_Unmarshal r d
  = Some (response ∅ 404 (error_doc 404 "not-found"), d).
Proof. intros Hp Hno. unfold serve. by rewrite ServeHTTP_other_path. Qed.

Lemma slash_not_album_path (id : string) :
  id = "" ∨ "/"%char ∈ String.list_ascii_of_string id →
  ∀ id', ¬ album_path ("/albums/" +:+ id) id'.
Proof.
  intros Hbad id' (Hid & Hne & Hslash).
  apply (inj (String.app "/albums/")) in Hid. subst id'.
  by destruct Hbad.
Qed.

Lemma serve_POST_valid (r : Request) (b : string) (album : Album)
    (d : gmap string Album) :
  Method r = "POST" → URL_Path r = "/albums" →
  Body r = (b, None) → json_Unmarshal b Album_zero = (album, None) →
  valid album →
  serve (DB := MemoryDatabase_Database range_map) json_Unmarshal r d
  = Some (match d !! ID album with
          | Some _ => (response ∅ 409 (error_doc 409 "already-exists"), d)
          | None => (response ∅ 201 (marshal album), <[ID album := album]> d)
          end).
Proof.
  intros Hm Hp Hb Hu Hvalid. unfold serve.
  rewrite ServeHTTP_POST_albums by done.
  rewrite (addAlbum_decoded json_Unmarshal r b album d Hb Hu).
  rewrite decide_True by (by apply validation_issues_valid). simpl.
  rewrite MemoryDatabaseFacts.AddAlbum_unfold.
  by destruct (d !! ID album).
Qed.

(** X14. Over the in-memory database GET /albums always answers 200 with
    the array of the stored albums, each written as its object, in
    ascending order of id; the database is left as it was. *)
Theorem list_albums_response (r : Request) (d : gmap string Album) :
  (∀ m, range_map m ≡ₚ map_to_list m) →
  Method r = "GET" → URL_Path r = "/albums" →
  ∃ albums,
    serve (DB := MemoryDatabase_Database range_map) json_Unmarshal r d
    = Some (response ∅ 200 (JArray (marshal <$> albums)), d) ∧
    albums ≡ₚ MemoryDatabase.stored d ∧ Sorted ID_le albums.
Proof.
  intros Hrange Hm Hp. exists (sort_Slice ID_less (range_map d).*2).
  split; [|split].
  - unfold serve, ServeHTTP. rewrite Hm, Hp. simpl.
    by rewrite MemoryDatabaseFacts.copy_albums_from.
  - rewrite sort_Slice_Permutation. unfold MemoryDatabase.stored. by rewrite Hrange.
  - apply MemoryDatabaseMore.ID_less_Sorted.
Qed.

(** X15. Over the in-memory database a GET for the path of a stored id,
    when the id is one or more non-slash bytes, answers 200 with the
    object of the stored album and leaves the database as it was. *)
Theorem get_album_response (r : Request) (id : string) (album : Album)
    (d : gmap string Album) :
  d !! id = Some album → Method r = "GET" → album_path (URL_Path r) id →
  serve (DB := MemoryDatabase_Database range_map) json_Unmarshal r d
  = Some (response ∅ 200 (marshal album), d).
Proof.
  intros Hd Hm Hp. rewrite (serve_GET_album r id d Hm Hp). by rewrite Hd.
Qed.

(** X16. Validation lets an id with a slash through, but no path reaches
    it: a valid album whose id holds a slash is created with a 201 and
    stored, and from then on GET /albums/{id} for that very id answers 404
    not-found. *)
Theorem slash_id_created_not_fetched (r r' : Request) (b : string) (album : Album)
    (d : gmap string Album) :
  Method r = "POST" → URL_Path r = "/albums" →
  Body r = (b, None) → json_Unmarshal b Album_zero = (album, None) →
  valid album → "/"%char ∈ String.list_ascii_of_string (ID album) →
  d !! ID album = None →
  Method r' = "GET" → URL_Path r' = "/albums/" +:+ ID album →
  ∃ d',
    serve (DB := MemoryDatabase_Database range_map) json_Unmarshal r d
    = Some (response ∅ 201 (marshal album), d') ∧
    d' !! ID album = Some album ∧
    serve (DB := MemoryDatabase_Database range_map) json_Unmarshal r' d'
    = Some (response ∅ 404 (error_doc 404 "not-found"), d').
Proof.
  intros Hm Hp Hb Hu Hvalid Hslash Hfresh Hm' Hp'.
  exists (<[ID album := album]> d). split; [|split].
  - rewrite (serve_POST_valid r b album d) by done. by rewrite Hfresh.
  - apply lookup_insert_eq.
  - apply serve_GET_not_album; [by rewrite Hp'|].
    rewrite Hp'. apply slash_not_album_path. by right.
Qed.

(** X17. Over the in-memory database a POST /albums with a valid album
    whose id is already stored answers 409 with the bare envelope of kind
    already-exists, and the database, the stored record included, is left
    as it was. *)
Theorem create_duplicate_conflict (r : Request) (b : string) (album old : Album)
    (d : gmap string Album) :
  Method r = "POST" → URL_Path r = "/albums" →
  Body r = (b, None) → json_Unmarshal b Album_zero = (album, None) →
  valid album → d !! ID album = Some old →
  serve (DB := MemoryDatabase_Database range_map) json_Unmarshal r d
  = Some (response ∅ 409
            (JObject [("status", JNumber 409); ("error", JString "already-exists")]),
          d).
Proof.
  intros Hm Hp Hb Hu Hvalid Hold.
  rewrite (serve_POST_valid r b album d) by done. by rewrite Hold.
Qed.
End MemoryServerMore.

Lemma list_albums_response_witness :
  ∃ albums,
    main_serve (decode_as Album_zero) (request "GET" "/albums") main_db
    = Some (response ∅ 200 (JArray (marshal <$> albums)), main_db) ∧
    albums ≡ₚ MemoryDatabase.stored main_db ∧ Sorted ID_le albums.
Proof.
  apply (list_albums_response map_to_list (decode_as Album_zero)
           (request "GET" "/albums") main_db); reflexivity.
Defined.

Lemma get_album_response_witness :
  main_serve (decode_as Album_zero) (request "GET" "/albums/a2") main_db
  = Some (response ∅ 200
            (JObject [("id", JString "a2"); ("title", JString "Hey Jude");
                      ("artist", JString "The Beatles"); ("price", JNumber 2000)]),
          main_db).
Proof.
  apply (get_album_response map_to_list (decode_as Album_zero)
           (request "GET" "/albums/a2") "a2"
           (mkAlbum "a2" "Hey Jude" "The Beatles" 2000) main_db).
  - vm_compute. reflexivity.
  - reflexivity.
  - split; [reflexivity|]. split; [discriminate|].
    simpl. rewrite !not_elem_of_cons.
    repeat split; (discriminate || apply not_elem_of_nil).
Defined.

Lemma slash_id_created_not_fetched_witness :
  ∃ d',
    main_serve (decode_as (mkAlbum "a/b" "Kind of Blue" "Miles Davis" 1299))
      (post_albums "{}") main_db
    = Some (response ∅ 201
              (marshal (mkAlbum "a/b" "Kind of Blue" "Miles Davis" 1299)), d') ∧
    d' !! "a/b" = Some (mkAlbum "a/b" "Kind of Blue" "Miles Davis" 1299) ∧
    main_serve (decode_as (mkAlbum "a/b" "Kind of Blue" "Miles Davis" 1299))
      (request "GET" "/albums/a/b") d'
    = Some (response ∅ 404 (error_doc 404 "not-found"), d').
Proof.
  apply (slash_id_created_not_fetched map_to_list
           (decode_as (mkAlbum "a/b" "Kind of Blue" "Miles Davis" 1299))
           (post_albums "{}") (request "GET" "/albums/a/b") "{}"
           (mkAlbum "a/b" "Kind of Blue" "Miles Davis" 1299) main_db);
    try reflexivity.
  - unfold valid; simpl. repeat split; (discriminate || lia).
  - simpl. set_solver.
Defined.

Lemma create_duplicate_conflict_witness :
  main_serve (decode_as (mkAlbum "a1" "Abbey Road" "The Beatles" 1500))
    (post_albums "{}") main_db
  = Some (response ∅ 409
            (JObject [("status", JNumber 409); ("error", JString "already-exists")]),
          main_db).
Proof.
  apply (create_duplicate_conflict map_to_list
           (decode_as (mkAlbum "a1" "Abbey Road" "The Beatles" 1500))
           (post_albums "{}") "{}"
           (mkAlbum "a1" "Abbey Road" "The Beatles" 1500)
           (mkAlbum "a1" "9th Symphony" "Beethoven" 795) main_db);
    try reflexivity.
  unfold valid; simpl. repeat split; (discriminate || lia).
Defined.

(** ** What a request can do to the in-memory database *)
Section MemoryServerEffects.
Variable range_map : gmap string Album → list (string * Album).
Variable json_Unmarshal : string → Album → Album * option error.

Lemma serve_memory_cases (r : Request) (d : gmap string Album) :
  (∃ w, serve (DB := MemoryDatabase_Database range_map) json_Unmarshal r d
        = Some (w, d) ∧ status w ≠ Some StatusCreated) ∨
  (∃ album, Method r = "POST" ∧ URL_Path r = "/albums" ∧
            valid album ∧ d !! ID album = None ∧
            serve (DB := MemoryDatabase_Database range_map) json_Unmarshal r d
            = Some (response ∅ StatusCreated (marshal album),
                    <[ID album := album]> d)).
Proof.
  destruct (decide (URL_Path r = "/albums")) as [Hp|Hp].
  - destruct (decide (Method r = "GET")) as [Hget|Hget];
      [|destruct (decide (Method r = "POST")) as [Hpost|Hpost]].
    + left. unfold serve, ServeHTTP. rewrite !decide_True by done.
      eexists. split; [reflexivity|done].
    + destruct (Body r) as [b [e|]] eqn:Hb.
      { left. unfold serve. rewrite ServeHTTP_POST_albums by done.
        unfold addAlbum, readJSON, mbind, handler_bind. rewrite Hb.
        eexists. split; [reflexivity|done]. }
      destruct (json_Unmarshal b Album_zero) as [album [e|]] eqn:Hu.
      { left. unfold serve. rewrite ServeHTTP_POST_albums by done.
        unfold addAlbum, mbind, handler_bind.
        rewrite (readJSON_malformed json_Unmarshal r b Album_zero album e d Hb Hu).
        eexists. split; [reflexivity|done]. }
      destruct (decide (validation_issues album = ∅)) as [Hvalid|Hinvalid].
      * apply validation_issues_valid in Hvalid.
        pose proof (serve_POST_valid range_map json_Unmarshal r b album d
                      Hpost Hp Hb Hu Hvalid) as Hserve.
        destruct (d !! ID album) as [old|] eqn:Hold.
        -- left. eexists. split; [exact Hserve|done].
        -- right. by exists album.
      * left. unfold serve. rewrite ServeHTTP_POST_albums by done.
        rewrite (addAlbum_decoded json_Unmarshal r b album d Hb Hu).
        rewrite decide_False by done. eexists. split; [reflexivity|done].
    + left. unfold serve, ServeHTTP. rewrite decide_True, !decide_False by done.
      eexists. split; [reflexivity|done].
  - left. unfold serve, ServeHTTP, match_. rewrite decide_False by done.
    destruct (reAlbumsID_cases (URL_Path r)) as [->|[id ->]]; simpl.
    + eexists. split; [reflexivity|done].
    + destruct (decide (Method r = "GET")) as [Hget|Hget].
      * unfold getAlbumByID, mbind, handler_bind, db_call, NewResponseWriter. simpl.
        rewrite MemoryDatabaseFacts.GetAlbumByID_unfold.
        destruct (d !! id); eexists; (split; [reflexivity|done]).
      * eexists. split; [reflexivity|done].
Qed.

(** X18. All a request can do to the in-memory database is add one album:
    either the database is left exactly as it was and the status is not
    201, or the request is a POST /albums, the status is 201, and the
    database gained one valid album, the one echoed in the response, under
    an id that had no record. *)
Theorem request_effect (r : Request) (d : gmap string Album) :
  (∃ w, serve (DB := MemoryDatabase_Database range_map) json_Unmarshal r d
        = Some (w, d) ∧ status w ≠ Some 201) ∨
  (∃ album, Method r = "POST" ∧ URL_Path r = "/albums" ∧
            valid album ∧ d !! ID album = None ∧
            serve (DB := MemoryDatabase_Database range_map) json_Unmarshal r d
            = Some (response ∅ 201 (marshal album), <[ID album := album]> d)).
Proof. apply serve_memory_cases. Qed.

Lemma all_valid_step (r : Request) (d : gmap string Album) :
  all_valid d → all_valid (run_requests range_map json_Unmarshal [r] d) ∧
  ∀ k a, d !! k = Some a → run_requests range_map json_Unmarshal [r] d !! k = Some a.
Proof.
  intros Hd. unfold run_requests. simpl.
  destruct (serve_memory_cases r d)
    as [(w & -> & _)|(album & _ & _ & Hvalid & Hfresh & ->)]; [done|].
  split.
  - intros k a. rewrite lookup_insert. case_decide; [|by apply Hd].
    by intros [= <-].
  - intros k a Hk. rewrite lookup_insert_ne; [done|]. intros <-. congruence.
Qed.

(** X19. The server keeps the stored albums valid and keeps them: if every
    stored album passes validation and is filed under its id, then after
    any sequence of requests that is still so, and every record that was
    stored is still there unchanged. *)
Theorem requests_keep_valid (rs : list Request) (d : gmap string Album) :
  all_valid d →
  all_valid (run_requests range_map json_Unmarshal rs d) ∧
  ∀ k a, d !! k = Some a →
         run_requests range_map json_Unmarshal rs d !! k = Some a.
Proof.
  revert d. induction rs as [|r rs IH]; intros d Hd; [done|].
  destruct (all_valid_step r d Hd) as [Hvalid Hkept].
  change (run_requests range_map json_Unmarshal (r :: rs) d)
    with (run_requests range_map json_Unmarshal rs
            (run_requests range_map json_Unmarshal [r] d)).
  destruct (IH _ Hvalid) as [Hvalid' Hkept']. split; [done|].
  intros k a Hk. by apply Hkept', Hkept.
Qed.
End MemoryServerEffects.

Lemma all_valid_add_all (l : list Album) (d : gmap string Album) :
  all_valid d → Forall valid l → all_valid (MemoryDatabase.add_all l d).
Proof.
  revert d. induction l as [|a l IH]; intros d Hd Hl; simpl; [done|].
  apply Forall_cons in Hl as [Ha Hl]. apply IH; [|done].
  rewrite MemoryDatabaseFacts.AddAlbum_unfold.
  destruct (d !! ID a) eqn:E; simpl; [done|].
  intros k x. rewrite lookup_insert. case_decide; [|by apply Hd].
  by intros [= <-].
Qed.

Lemma all_valid_main_db : all_valid main_db.
Proof.
  apply all_valid_add_all.
  - intros k a. unfold MemoryDatabase.NewMemoryDatabase. by rewrite lookup_empty.
  - repeat constructor; simpl; (discriminate || lia).
Qed.

Lemma requests_keep_valid_witness :
  all_valid
    (run_requests map_to_list (decode_as (priced 1299))
       [post_albums "{}"; request "GET" "/albums"; post_albums "{}"] main_db) ∧
  ∀ k a, main_db !! k = Some a →
         run_requests map_to_list (decode_as (priced 1299))
           [post_albums "{}"; request "GET" "/albums"; post_albums "{}"] main_db
         !! k = Some a.
Proof.
  apply (requests_keep_valid map_to_list (decode_as (priced 1299))
           [post_albums "{}"; request "GET" "/albums"; post_albums "{}"] main_db).
  exact all_valid_main_db.
Defined.
